(** * Implicit Gradient Transport: a shallow embedding of [torch_igt/igt.py]

    The optimizer [MomentumIGT] is embedded as a set of executable
    definitions over rational arithmetic.  Python objects that are mutated
    in place (parameter tensors, gradient tensors, the per-parameter state
    dictionaries and the parameter-group dictionaries) live in an explicit
    store; every method becomes a computation in a state-and-exception
    monad in which the store survives a raised exception, as it does in
    Python.

    Scalars are exact rationals ([Q]): the development verifies the update
    rule as arithmetic; rounding is not modelled. *)

From Stdlib Require Import ZArith QArith Qfield Lqa Lia List Bool.
From stdpp Require Import base option list gmap.
Import ListNotations.

Local Open Scope Q_scope.

(** ** Tensors

    A tensor is the flat list of its entries.  The element-wise operations
    of the tensor library insist on equal shapes: an in-place operation on
    two tensors of different sizes raises [RuntimeError] (broadcasting is
    not modelled). *)

Abbreviation Tensor := (list Q).

Definition tensor_eq (a b : Tensor) : Prop := Forall2 Qeq a b.

Infix "=t=" := tensor_eq (at level 70, no associativity).

Definition zeros (n : nat) : Tensor := repeat 0 n.

Definition scale (c : Q) (a : Tensor) : Tensor := map (Qmult c) a.

(** [axpy a alpha b] is [a + alpha * b], entry by entry. *)
Fixpoint axpy (a : Tensor) (alpha : Q) (b : Tensor) : Tensor :=
  match a, b with
  | x :: a', y :: b' => (x + alpha * y) :: axpy a' alpha b'
  | _, _ => []
  end.

Definition same_shape (a b : Tensor) : bool := Nat.eqb (length a) (length b).

(** ** Exceptions and the monad *)

(** The keys of a per-parameter state dictionary. *)
Inductive key := Kigt_velocity | Ktrue_params | Kmomentum_velocity.

Inductive value_error :=
| InvalidWeightDecay (weight_decay : Q)
| InvalidDelta (delta : Q)
| NesterovRequirement
| EmptyParameterList
| MissingRequired.

Inductive exn :=
| ValueError (msg : value_error)
| KeyError (k : key)
| ZeroDivisionError
| AttributeError
| RuntimeError.

Inductive outcome (A : Type) :=
| Ret (a : A)
| Raise (e : exn).

Arguments Ret {A} a.
Arguments Raise {A} e.

(** A computation over a store [S]: the store is returned in both cases. *)
Definition Py (S A : Type) : Type := S -> outcome A * S.

Definition ret {S A} (a : A) : Py S A := fun s => (Ret a, s).

Definition raise {S A} (e : exn) : Py S A := fun s => (Raise e, s).

Definition bind {S A B} (m : Py S A) (f : A -> Py S B) : Py S B :=
  fun s =>
    match m s with
    | (Ret a, s') => f a s'
    | (Raise e, s') => (Raise e, s')
    end.

Notation "'let*' x := m 'in' k" := (bind m (fun x => k))
  (at level 10, x name, m at level 100, k at level 200).
Notation "m ;; k" := (bind m (fun _ => k))
  (at level 100, k at level 200, right associativity).

Definition gets {S A} (f : S -> A) : Py S A := fun s => (Ret (f s), s).

Definition modify {S} (f : S -> S) : Py S unit := fun s => (Ret tt, f s).

Definition when {S} (b : bool) (m : Py S unit) : Py S unit :=
  if b then m else ret tt.

(** [for x in l: body x] *)
Fixpoint for_each {S A} (l : list A) (body : A -> Py S unit) : Py S unit :=
  match l with
  | [] => ret tt
  | x :: l' => body x ;; for_each l' body
  end.

(** Python's true division of floats raises on a zero divisor.  The
    divisor here is an exact rational: one that is zero only after
    rounding is not zero in this model. *)
Definition py_div {S} (x y : Q) : Py S Q :=
  if Qeq_bool y 0 then raise ZeroDivisionError else ret (x / y).

(** ** The buffers of one parameter

    Inside the loops over [group['params']] the code touches, for the
    parameter [p] at hand, only [p.data], [p.grad.data] and the dictionary
    [self.state[p]].  [PView] is that part of the store. *)

Record ParamState := {
  st_igt_velocity : option Tensor;
  st_true_params : option Tensor;
  st_momentum_velocity : option Tensor
}.

Definition empty_dict : ParamState :=
  {| st_igt_velocity := None; st_true_params := None;
     st_momentum_velocity := None |}.

Definition dict_get (k : key) (d : ParamState) : option Tensor :=
  match k with
  | Kigt_velocity => st_igt_velocity d
  | Ktrue_params => st_true_params d
  | Kmomentum_velocity => st_momentum_velocity d
  end.

Definition dict_set (k : key) (t : Tensor) (d : ParamState) : ParamState :=
  match k with
  | Kigt_velocity =>
      {| st_igt_velocity := Some t; st_true_params := st_true_params d;
         st_momentum_velocity := st_momentum_velocity d |}
  | Ktrue_params =>
      {| st_igt_velocity := st_igt_velocity d; st_true_params := Some t;
         st_momentum_velocity := st_momentum_velocity d |}
  | Kmomentum_velocity =>
      {| st_igt_velocity := st_igt_velocity d;
         st_true_params := st_true_params d;
         st_momentum_velocity := Some t |}
  end.

Record Param := {
  data : Tensor;                 (* p.data *)
  grad : option Tensor           (* p.grad, None when absent *)
}.

Record PView := {
  param : Param;                 (* p *)
  param_state : ParamState       (* self.state[p] *)
}.

(** Names of the tensor objects reachable from one parameter. *)
Inductive buf := Data | Grad | Slot (k : key).

Definition read (b : buf) : Py PView Tensor :=
  fun v =>
    match b with
    | Data => (Ret (data (param v)), v)
    | Grad =>
        match grad (param v) with
        | Some g => (Ret g, v)
        | None => (Raise AttributeError, v)
        end
    | Slot k =>
        match dict_get k (param_state v) with
        | Some t => (Ret t, v)
        | None => (Raise (KeyError k), v)
        end
    end.

Definition write (b : buf) (t : Tensor) : Py PView unit :=
  fun v =>
    (Ret tt,
     match b with
     | Data =>
         {| param := {| data := t; grad := grad (param v) |};
            param_state := param_state v |}
     | Grad =>
         {| param := {| data := data (param v); grad := Some t |};
            param_state := param_state v |}
     | Slot k =>
         {| param := param v; param_state := dict_set k t (param_state v) |}
     end).

(** ['k' in param_state] *)
Definition contains (k : key) : Py PView bool :=
  gets (fun v => match dict_get k (param_state v) with
                 | Some _ => true
                 | None => false
                 end).

(** [param_state['k']] as an expression: the tensor object stored there. *)
Definition getitem (k : key) : Py PView buf :=
  read (Slot k) ;; ret (Slot k).

(** [param_state['k'] = t] *)
Definition setitem (k : key) (t : Tensor) : Py PView unit := write (Slot k) t.

(** [th.zeros_like(b)] and [b.clone()] allocate fresh tensors. *)
Definition zeros_like (b : buf) : Py PView Tensor :=
  let* t := read b in ret (zeros (length t)).

Definition clone (b : buf) : Py PView Tensor := read b.

(** [a.add_(alpha, b)]: in place [a += alpha * b]. *)
Definition add_ (a : buf) (alpha : Q) (b : buf) : Py PView unit :=
  let* x := read a in
  let* y := read b in
  if same_shape x y then write a (axpy x alpha y) else raise RuntimeError.

(** [a.mul_(c)] *)
Definition mul_ (a : buf) (c : Q) : Py PView unit :=
  let* x := read a in write a (scale c x).

(** [a.copy_(b)] *)
Definition copy_ (a b : buf) : Py PView unit :=
  let* x := read a in
  let* y := read b in
  if same_shape x y then write a y else raise RuntimeError.

(** ** The optimizer object and the store *)

Record Group := {
  params : list nat;             (* group['params'], by identity *)
  lr : Q;
  momentum : Q;
  dampening : Q;
  weight_decay : Q;
  nesterov : bool;
  delta : Q;
  num_steps : Z;
  transported : bool
}.

Definition set_num_steps (n : Z) (g : Group) : Group :=
  {| params := params g; lr := lr g; momentum := momentum g;
     dampening := dampening g; weight_decay := weight_decay g;
     nesterov := nesterov g; delta := delta g;
     num_steps := n; transported := transported g |}.

Definition set_transported (b : bool) (g : Group) : Group :=
  {| params := params g; lr := lr g; momentum := momentum g;
     dampening := dampening g; weight_decay := weight_decay g;
     nesterov := nesterov g; delta := delta g;
     num_steps := num_steps g; transported := b |}.

Record Optimizer := {
  state : gmap nat ParamState;   (* self.state, a defaultdict(dict) *)
  param_groups : list Group      (* self.param_groups *)
}.

Record World := {
  parameters : gmap nat Param;   (* the parameter objects, by identity *)
  self : Optimizer
}.

#[global] Instance Param_inhabited : Inhabited Param :=
  populate {| data := []; grad := None |}.

(** Runs a loop body on the buffers of parameter [p].  Reading
    [self.state[p]] inserts an empty dictionary when [p] has none. *)
Definition view (w : World) (p : nat) : PView :=
  {| param := parameters w !!! p;
     param_state := default empty_dict (state (self w) !! p) |}.

Definition put_view (p : nat) (v : PView) (w : World) : World :=
  {| parameters := <[p := param v]> (parameters w);
     self := {| state := <[p := param_state v]> (state (self w));
                param_groups := param_groups (self w) |} |}.

Definition with_param {A} (p : nat) (body : Py PView A) : Py World A :=
  fun w => let (o, v') := body (view w p) in (o, put_view p v' w).

(** [group[...] = ...] on the [i]-th group. *)
Definition update_group (i : nat) (f : Group -> Group) : Py World unit :=
  modify (fun w =>
    {| parameters := parameters w;
       self := {| state := state (self w);
                  param_groups := alter f i (param_groups (self w)) |} |}).

(** [for group in self.param_groups: body], the groups taken by position:
    [group_loop_body body i] runs the body on the [i]-th dictionary. *)
Definition group_loop_body (body : nat -> Group -> Py World unit) (i : nat)
    : Py World unit :=
  let* og := gets (fun w => param_groups (self w) !! i) in
  match og with
  | Some group => body i group
  | None => ret tt
  end.

Definition for_groups (body : nat -> Group -> Py World unit) : Py World unit :=
  let* n := gets (fun w => length (param_groups (self w))) in
  for_each (seq 0 n) (group_loop_body body).

Definition is_zero (x : Q) : bool := Qeq_bool x 0.

Module MomentumIGT.

(** [torch.optim.Optimizer.__init__(params, defaults)] for a plain list of
    parameters: the library's base class refuses an empty list and a
    required default that was not given, and otherwise builds one group
    and an empty state. *)
Definition Optimizer__init__ (params : list nat) (lr : option Q)
    (momentum dampening weight_decay : Q) (nesterov : bool) (delta : Q)
    : outcome Optimizer :=
  match params with
  | [] => Raise (ValueError EmptyParameterList)
  | _ :: _ =>
      match lr with
      | None => Raise (ValueError MissingRequired)
      | Some lr =>
          Ret {| state := ∅;
                 param_groups :=
                   [ {| params := params; lr := lr; momentum := momentum;
                        dampening := dampening;
                        weight_decay := weight_decay;
                        nesterov := nesterov; delta := delta;
                        num_steps := 0; transported := true |} ] |}
      end
  end.

(** [lr = None] stands for the sentinel [required]. *)
Definition __init__ (params : list nat) (lr : option Q)
    (momentum dampening weight_decay : Q) (nesterov : bool) (delta : Q)
    : outcome Optimizer :=
  if negb (Qle_bool 0 weight_decay) then
    Raise (ValueError (InvalidWeightDecay weight_decay))
  else if Qle_bool delta 0 then
    Raise (ValueError (InvalidDelta delta))
  else if nesterov && (Qle_bool momentum 0 || negb (is_zero dampening)) then
    Raise (ValueError NesterovRequirement)
  else
    Optimizer__init__ params lr momentum dampening weight_decay nesterov delta.

(** The body of the loop over [group['params']] in [step], after the test
    [p.grad is None]. *)
Definition step_param (group : Group) (gamma future_transport : Q)
    : Py PView unit :=
  let lr := lr group in
  let momentum := momentum group in
  let dampening := dampening group in
  let weight_decay := weight_decay group in
  let d_p := Grad in
  (* Apply weight decay *)
  when (negb (is_zero weight_decay)) (add_ d_p weight_decay Data) ;;
  let* vt :=
    (* Init buffers appropriately *)
    if (num_steps group =? 0)%Z then
      (let* has := contains Kigt_velocity in
       when (negb has)
         (let* z := zeros_like Data in setitem Kigt_velocity z)) ;;
      (let* has := contains Ktrue_params in
       when (negb has)
         (let* c := clone Data in setitem Ktrue_params c)) ;;
      (let* has := contains Kmomentum_velocity in
       when (negb (is_zero momentum) && negb has)
         (let* z := zeros_like Data in setitem Kmomentum_velocity z)) ;;
      let* igt_velocity := getitem Kigt_velocity in
      let* true_params := getitem Ktrue_params in
      (* Compute first step and initial values *)
      add_ igt_velocity 1 d_p ;;
      when (negb (is_zero momentum))
        (let* momentum_velocity := getitem Kmomentum_velocity in
         add_ momentum_velocity 1 igt_velocity) ;;
      ret (igt_velocity, true_params)
    (* Compute the IGT update *)
    else
      let* igt_velocity := getitem Kigt_velocity in
      let* true_params := getitem Ktrue_params in
      (* Update IGT's velocity *)
      mul_ igt_velocity gamma ;;
      add_ igt_velocity (1 - gamma) d_p ;;
      (* Compute momentum if necessary *)
      when (negb (is_zero momentum))
        (let* momentum_velocity := getitem Kmomentum_velocity in
         mul_ momentum_velocity momentum ;;
         add_ momentum_velocity (1 - dampening) igt_velocity) ;;
      ret (igt_velocity, true_params) in
  let igt_velocity := fst vt in
  let true_params := snd vt in
  (* Update true and transported parameters *)
  if is_zero momentum then
    (* Update true parameters *)
    add_ true_params (- lr) igt_velocity ;;
    (* Set parameters to transported ones *)
    copy_ Data true_params ;;
    add_ Data (- lr * future_transport) igt_velocity
  else
    let* momentum_velocity := getitem Kmomentum_velocity in
    if nesterov group then
      add_ true_params (- lr) igt_velocity ;;
      add_ true_params (- lr * momentum) momentum_velocity ;;
      (* Set parameters to transported ones *)
      copy_ Data true_params ;;
      add_ Data (- lr * future_transport) igt_velocity ;;
      add_ Data (- lr * momentum * future_transport) momentum_velocity
    else
      add_ true_params (- lr) momentum_velocity ;;
      (* Set parameters to transported ones *)
      copy_ Data true_params ;;
      add_ Data (- lr * future_transport) momentum_velocity.

(** One round of the loop over [group['params']] in [step]. *)
Definition step_loop_body (group : Group) (gamma future_transport : Q)
    (p : nat) : Py World unit :=
  let* g := gets (fun w => grad (parameters w !!! p)) in
  match g with
  | None => ret tt                                    (* continue *)
  | Some _ => with_param p (step_param group gamma future_transport)
  end.

Definition step_group (i : nat) (group : Group) : Py World unit :=
  let delta := delta group in
  let num_steps := num_steps group in
  let* gamma := py_div (inject_Z num_steps) (inject_Z num_steps + delta) in
  let* future_gamma :=
    py_div (inject_Z (num_steps + 1)) (inject_Z (num_steps + 1) + delta) in
  let* future_transport := py_div future_gamma (1 - future_gamma) in
  for_each (params group) (step_loop_body group gamma future_transport) ;;
  update_group i (set_num_steps (num_steps + 1)).

Definition step {L} (closure : option (Py World L)) : Py World (option L) :=
  let* loss :=
    match closure with
    | Some closure => let* l := closure in ret (Some l)
    | None => ret None
    end in
  for_groups step_group ;;
  ret loss.

(** The body of the loop over [group['params']] in [train]. *)
Definition train_param (group : Group) (transport : Q) : Py PView unit :=
  let lr := lr group in
  let momentum := momentum group in
  (* Should compute the future transported params *)
  let* igt_velocity := getitem Kigt_velocity in
  let* true_params := getitem Ktrue_params in
  copy_ Data true_params ;;
  if is_zero momentum then
    add_ Data (- lr * transport) igt_velocity
  else
    let* momentum_velocity := getitem Kmomentum_velocity in
    if nesterov group then
      add_ Data (- lr * transport) igt_velocity ;;
      add_ Data (- lr * momentum * transport) momentum_velocity
    else
      add_ Data (- lr * transport) momentum_velocity.

Definition train_group (i : nat) (group : Group) : Py World unit :=
  let delta := delta group in
  let num_steps := num_steps group in
  let* gamma := py_div (inject_Z num_steps) (inject_Z num_steps + delta) in
  let* transport := py_div gamma (1 - gamma) in
  when (negb (transported group) && (0 <? num_steps)%Z)
    (for_each (params group) (fun p =>
       with_param p (train_param group transport)) ;;
     update_group i (set_transported true)).

Definition train : Py World unit := for_groups train_group.

Definition eval_group (i : nat) (group : Group) : Py World unit :=
  when (transported group)
    (for_each (params group) (fun p =>
       (* Copy true_params to the params *)
       with_param p
         (let* true_params := getitem Ktrue_params in
          copy_ Data true_params)) ;;
     update_group i (set_transported false)).

Definition eval : Py World unit := for_groups eval_group.

End MomentumIGT.

Import MomentumIGT.

(** * Vocabulary of the statements *)

(** The hyperparameter combinations the constructor refuses. *)
Definition invalid_config (momentum dampening weight_decay : Q)
    (nesterov : bool) (delta : Q) : Prop :=
  weight_decay < 0 \/ delta <= 0 \/
  (nesterov = true /\ (momentum <= 0 \/ ~ dampening == 0)).

(** The errors raised by the constructor's own checks. *)
Definition configuration_error (e : exn) : Prop :=
  match e with
  | ValueError (InvalidWeightDecay _)
  | ValueError (InvalidDelta _)
  | ValueError NesterovRequirement => True
  | _ => False
  end.

(** A computation keeps a relation between the store before and after,
    whatever its outcome. *)
Definition preserves {S A} (R : S -> S -> Prop) (m : Py S A) : Prop :=
  forall s, R s (snd (m s)).

(** Parameter [p] has the same tensors and the same state entry. *)
Definition untouched (p : nat) (w w' : World) : Prop :=
  parameters w' !!! p = parameters w !!! p /\
  state (self w') !! p = state (self w) !! p.

Definition untouched_if_no_grad (p : nat) (w w' : World) : Prop :=
  grad (parameters w !!! p) = None -> untouched p w w'.

Definition same_groups (w w' : World) : Prop :=
  param_groups (self w') = param_groups (self w).

(** What a completed [step] does to a group dictionary. *)
Definition advance (g : Group) : Group := set_num_steps (num_steps g + 1) g.

(** No parameter has a [true_params] buffer: no [step] has got as far as
    creating one. *)
Definition no_true_params (w : World) : Prop :=
  forall p, st_true_params (param_state (view w p)) = None.

Definition same_views (w w' : World) : Prop :=
  forall p, view w' p = view w p.

Definition same_views_if_no_true_params (w w' : World) : Prop :=
  no_true_params w -> same_views w w'.

(** A group on which [eval] has nothing to do: it is not transported, or
    it has no parameter. *)
Definition quiet (g : Group) : bool :=
  negb (transported g) || match params g with [] => true | _ :: _ => false end.

(** A store with the single parameter [0], and the optimizer built for it. *)
Definition one_param (d : Tensor) (g : option Tensor) : gmap nat Param :=
  {[ 0%nat := {| data := d; grad := g |} ]}.

Definition optimizer_of (o : outcome Optimizer) : Optimizer :=
  match o with
  | Ret o => o
  | Raise _ => {| state := ∅; param_groups := [] |}
  end.

Definition fresh_world (d : Tensor) (g : option Tensor)
    (lr momentum dampening weight_decay : Q) (nesterov : bool) (delta : Q)
    : World :=
  {| parameters := one_param d g;
     self := optimizer_of
               (__init__ [0%nat] (Some lr) momentum dampening weight_decay
                  nesterov delta) |}.

(** The coefficients [step] computes for a group, from its [num_steps]
    before the increment. *)
Definition gamma_of (g : Group) : Q :=
  inject_Z (num_steps g) / (inject_Z (num_steps g) + delta g).

Definition future_gamma_of (g : Group) : Q :=
  inject_Z (num_steps g + 1) / (inject_Z (num_steps g + 1) + delta g).

Definition future_transport_of (g : Group) : Q :=
  future_gamma_of g / (1 - future_gamma_of g).

(** Parameter [p] belongs to the [j]-th group only. *)
Definition only_in_group (p j : nat) (w : World) : Prop :=
  forall j' g', j' <> j -> param_groups (self w) !! j' = Some g' ->
                p ∉ params g'.

Definition kept_apart (p j : nat) (w w' : World) : Prop :=
  only_in_group p j w ->
  untouched p w w' /\ only_in_group p j w' /\
  param_groups (self w') !! j = param_groups (self w) !! j.

(** A stored buffer holds the values [t]. *)
Definition holds (o : option Tensor) (t : Tensor) : Prop :=
  match o with
  | Some x => x =t= t
  | None => False
  end.

(** The training loop's backward pass: it stores a gradient for [p]. *)
Definition backward (p : nat) (g : Tensor) : Py World unit :=
  modify (fun w =>
    {| parameters :=
         <[p := {| data := data (parameters w !!! p); grad := Some g |}]>
           (parameters w);
       self := self w |}).

Definition same_grads (w w' : World) : Prop :=
  forall p, grad (parameters w' !!! p) = grad (parameters w !!! p).

Definition with_groups (gs : list Group) (w : World) : World :=
  {| parameters := parameters w;
     self := {| state := state (self w); param_groups := gs |} |}.

(** The gradient after weight decay, as [step] uses it for a parameter
    whose exposed value is [d] and whose supplied gradient is [g]. *)
Definition effective_gradient (group : Group) (d g : Tensor) : Tensor :=
  if is_zero (weight_decay group) then g
  else axpy g (weight_decay group) d.

(** The velocities after the first step of a parameter. *)
Definition first_velocity (group : Group) (d g : Tensor) : Tensor :=
  axpy (zeros (length d)) 1 (effective_gradient group d g).

Definition first_momentum (group : Group) (d g : Tensor) : Tensor :=
  axpy (zeros (length d)) 1 (first_velocity group d g).

Definition fresh_view (d g : Tensor) : PView :=
  {| param := {| data := d; grad := Some g |}; param_state := empty_dict |}.

(** The group dictionary the constructor builds from its arguments. *)
Definition new_group (params : list nat)
    (lr momentum dampening weight_decay : Q) (nesterov : bool) (delta : Q)
    : Group :=
  {| params := params; lr := lr; momentum := momentum;
     dampening := dampening; weight_decay := weight_decay;
     nesterov := nesterov; delta := delta;
     num_steps := 0; transported := true |}.

(** Parameter [p] is registered once: in the [j]-th group, [group], and
    once in its list. *)
Definition registered (w : World) (j : nat) (group : Group) (p : nat) : Prop :=
  param_groups (self w) !! j = Some group /\
  p ∈ params group /\ NoDup (params group) /\ only_in_group p j w.

Definition no_weight_decay (w w' : World) : Prop :=
  Forall (fun g => is_zero (weight_decay g) = true) (param_groups (self w)) ->
  same_grads w w' /\
  Forall (fun g => is_zero (weight_decay g) = true) (param_groups (self w')).

(** A store with two parameters, of which only [0] has a gradient. *)
Definition two_params_world : World :=
  {| parameters :=
       {[ 0%nat := {| data := [1]; grad := Some [2] |};
          1%nat := {| data := [5]; grad := None |} ]};
     self := optimizer_of (__init__ [0%nat; 1%nat] (Some 0.1) 0 0 0 false 1) |}.

(** The store after one [step] with [weight_decay = 0.5] and a second
    backward pass, which stores the gradient 1. *)
Definition after_one_step : World :=
  snd (backward 0%nat [1]
         (snd (step (L:=unit) None
                 (fresh_world [1] (Some [2]) 0.1 0 0 0.5 false 1)))).

(** Everything in a group dictionary that is not the step counter. *)
Definition settings (g : Group) : Group := set_num_steps 0 g.

(** Everything in a group dictionary that is not the view flag. *)
Definition unflagged (g : Group) : Group := set_transported true g.

(** The body of the loop over [group['params']] in [eval]. *)
Definition eval_param : Py PView unit :=
  let* true_params := getitem Ktrue_params in
  copy_ Data true_params.

(** The true parameters [t] advanced along the velocities, as [step] does
    it in each of its three modes; [mv] is read under momentum only. *)
Definition advanced (g : Group) (t igt mv : Tensor) : Tensor :=
  if is_zero (momentum g) then axpy t (- lr g) igt
  else if nesterov g then
    axpy (axpy t (- lr g) igt) (- lr g * momentum g) mv
  else axpy t (- lr g) mv.

(** The exposed value: the true parameters [t] moved ahead by [transport]
    along the velocities. *)
Definition projection (g : Group) (transport : Q) (t igt mv : Tensor)
    : Tensor :=
  if is_zero (momentum g) then axpy t (- lr g * transport) igt
  else if nesterov g then
    axpy (axpy t (- lr g * transport) igt)
      (- lr g * momentum g * transport) mv
  else axpy t (- lr g * transport) mv.

(** A loop body that writes [p.data] only, and keeps its size. *)
Definition keeps_buffers {A} (m : Py PView A) : Prop :=
  forall v,
    param_state (snd (m v)) = param_state v /\
    grad (param (snd (m v))) = grad (param v) /\
    length (data (param (snd (m v)))) = length (data (param v)).

Definition buffers_kept (w w' : World) : Prop :=
  forall p,
    param_state (view w' p) = param_state (view w p) /\
    grad (parameters w' !!! p) = grad (parameters w !!! p) /\
    length (data (parameters w' !!! p)) = length (data (parameters w !!! p)).

(** What [train] and [eval] may change: exposed values and view flags. *)
Definition mode_frame (w w' : World) : Prop :=
  buffers_kept w w' /\
  map unflagged (param_groups (self w')) = map unflagged (param_groups (self w)).

(** What a completed [eval] and a completed [train] do to a group. *)
Definition eval_flag (g : Group) : Group :=
  if transported g then set_transported false g else g.

Definition train_flag (g : Group) : Group :=
  if negb (transported g) && (0 <? num_steps g)%Z
  then set_transported true g else g.

Definition flags_only (w w' : World) : Prop :=
  map unflagged (param_groups (self w')) = map unflagged (param_groups (self w)).

(** Every exposed value is what it was or has become [true_params]. *)
Definition exposes (w w' : World) : Prop :=
  buffers_kept w w' /\
  forall q,
    data (parameters w' !!! q) = data (parameters w !!! q) \/
    st_true_params (param_state (view w q)) = Some (data (parameters w' !!! q)).

(** ** Well-formed stores *)

(** Every stored buffer and the gradient have the size of the parameter. *)
Definition shaped (v : PView) : Prop :=
  (forall k t, dict_get k (param_state v) = Some t ->
               length t = length (data (param v))) /\
  (forall g, grad (param v) = Some g -> length g = length (data (param v))).

Definition has (k : key) (v : PView) : Prop :=
  is_Some (dict_get k (param_state v)).

(** The buffers a group with these hyperparameters reads are all there. *)
Definition complete (g : Group) (v : PView) : Prop :=
  has Kigt_velocity v /\ has Ktrue_params v /\
  (is_zero (momentum g) = false -> has Kmomentum_velocity v).

(** What [step] needs of a parameter: a gradient, everything of the right
    size, and the buffers in place once the group has made a step. *)
Definition ready (g : Group) (v : PView) : Prop :=
  shaped v /\ is_Some (grad (param v)) /\
  (num_steps g <> 0%Z -> complete g v).

(** What [step] leaves behind. *)
Definition settled (g : Group) (v : PView) : Prop :=
  shaped v /\ is_Some (grad (param v)) /\ complete g v.

Definition grows_view (v v' : PView) : Prop :=
  (shaped v -> shaped v') /\
  (is_Some (grad (param v)) -> is_Some (grad (param v'))) /\
  (forall k, has k v -> has k v') /\
  length (data (param v')) = length (data (param v)).

Definition grows (w w' : World) : Prop :=
  forall p, grows_view (view w p) (view w' p).

Definition prepared (w : World) : Prop :=
  forall j g, param_groups (self w) !! j = Some g ->
    forall p, p ∈ params g -> ready g (view w p).

Definition all_settled (w : World) : Prop :=
  forall j g, param_groups (self w) !! j = Some g ->
    forall p, p ∈ params g -> settled g (view w p).

(** What a training loop has to keep between two backward passes: sized
    buffers, and the buffers in place once the group has made a step. *)
Definition groomed (g : Group) (v : PView) : Prop :=
  (forall k t, dict_get k (param_state v) = Some t ->
               length t = length (data (param v))) /\
  (num_steps g <> 0%Z -> complete g v).

Definition well_kept (w : World) : Prop :=
  forall j g, param_groups (self w) !! j = Some g ->
    forall p, p ∈ params g -> groomed g (view w p).

(** The exception came from the head of the loop body of a group: on the
    store [w] the body of some group raises it and leaves [w] as it is. *)
Definition raised_by_a_group (e : exn) (w : World) : Prop :=
  exists m g,
    param_groups (self w) !! m = Some g /\
    step_group m g w = (Raise e, w).

(** A backward pass that stores, for every parameter of every group, a
    gradient of the size of the parameter. *)
Definition covers (w : World) (batch : list (nat * Tensor)) : Prop :=
  (forall j g p, param_groups (self w) !! j = Some g -> p ∈ params g ->
                 p ∈ map fst batch) /\
  Forall (fun pg => length (snd pg) = length (data (parameters w !!! fst pg)))
    batch.

(** A training loop: each round stores the gradients of a backward pass
    and calls [step]. *)
Definition training (batches : list (list (nat * Tensor))) : Py World unit :=
  for_each batches (fun batch =>
    for_each batch (fun pg => backward (fst pg) (snd pg)) ;;
    (step (L:=unit) None ;; ret tt)).


(** * Verification *)

(** ** Comparisons on rationals *)

Lemma is_zero_true x : is_zero x = true <-> x == 0.
Proof. apply Qeq_bool_iff. Qed.

Lemma is_zero_false x : is_zero x = false <-> ~ x == 0.
Proof.
  unfold is_zero. split.
  - apply Qeq_bool_neq.
  - intros H. destruct (Qeq_bool x 0) eqn:E; [|reflexivity].
    apply Qeq_bool_iff in E. contradiction.
Qed.

Lemma Qle_bool_false x y : Qle_bool x y = false <-> y < x.
Proof.
  split.
  - intros H. apply Qnot_le_lt. intros Hle.
    apply Qle_bool_iff in Hle. congruence.
  - intros H. destruct (Qle_bool x y) eqn:E; [|reflexivity].
    apply Qle_bool_iff in E. lra.
Qed.

(** ** Construction *)

Lemma init_checks_pass params lr momentum dampening weight_decay nesterov delta :
  ~ invalid_config momentum dampening weight_decay nesterov delta ->
  __init__ params lr momentum dampening weight_decay nesterov delta =
  Optimizer__init__ params lr momentum dampening weight_decay nesterov delta.
Proof.
  unfold invalid_config, __init__. intros Hv.
  destruct (Qle_bool 0 weight_decay) eqn:Ewd; cbn.
  2:{ apply Qle_bool_false in Ewd. tauto. }
  destruct (Qle_bool delta 0) eqn:Ed.
  { apply Qle_bool_iff in Ed. tauto. }
  destruct nesterov; cbn; [|reflexivity].
  destruct (Qle_bool momentum 0) eqn:Em; cbn.
  { apply Qle_bool_iff in Em. tauto. }
  destruct (is_zero dampening) eqn:Edm; cbn; [reflexivity|].
  apply is_zero_false in Edm. tauto.
Qed.

Lemma init_checks_fail params lr momentum dampening weight_decay nesterov delta :
  invalid_config momentum dampening weight_decay nesterov delta ->
  exists e,
    configuration_error e /\
    __init__ params lr momentum dampening weight_decay nesterov delta = Raise e.
Proof.
  unfold invalid_config, __init__. intros Hv.
  destruct (Qle_bool 0 weight_decay) eqn:Ewd; cbn.
  2:{ eexists; split; [|reflexivity]. exact I. }
  destruct (Qle_bool delta 0) eqn:Ed.
  { eexists; split; [|reflexivity]. exact I. }
  apply Qle_bool_iff in Ewd. apply Qle_bool_false in Ed.
  destruct Hv as [Hv|[Hv|[-> Hv]]]; [lra|lra|]. cbn.
  destruct (Qle_bool momentum 0) eqn:Em; cbn.
  { eexists; split; [|reflexivity]. exact I. }
  destruct (is_zero dampening) eqn:Edm; cbn.
  2:{ eexists; split; [|reflexivity]. exact I. }
  apply Qle_bool_false in Em. apply is_zero_true in Edm.
  destruct Hv as [Hv|Hv]; [lra|contradiction].
Qed.

Lemma base_init_no_configuration_error
    params lr momentum dampening weight_decay nesterov delta e :
  Optimizer__init__ params lr momentum dampening weight_decay nesterov delta
    = Raise e ->
  ~ configuration_error e.
Proof.
  unfold Optimizer__init__.
  destruct params; [intros [= <-]; exact id|].
  destruct lr; [discriminate|intros [= <-]; exact id].
Qed.

(** C5. Construction with [weight_decay < 0], [delta <= 0], or [nesterov]
    together with [momentum <= 0] or [dampening != 0] raises a
    configuration error, so that no optimizer (and no state) is built;
    with valid values of these, none of these errors is raised: the base
    class constructor is reached, and for a non-empty parameter list and a
    given learning rate it returns the optimizer with an empty state. *)
Theorem C5_init_configuration_errors
    params lr momentum dampening weight_decay nesterov delta :
  (invalid_config momentum dampening weight_decay nesterov delta ->
   exists e,
     configuration_error e /\
     __init__ params lr momentum dampening weight_decay nesterov delta
       = Raise e) /\
  (~ invalid_config momentum dampening weight_decay nesterov delta ->
   (forall e,
      __init__ params lr momentum dampening weight_decay nesterov delta
        = Raise e -> ~ configuration_error e) /\
   (params <> [] -> lr <> None ->
    exists o,
      __init__ params lr momentum dampening weight_decay nesterov delta
        = Ret o /\ state o = ∅)).
Proof.
  split.
  - apply init_checks_fail.
  - intros Hv. rewrite (init_checks_pass _ _ _ _ _ _ _ Hv). split.
    + intros e. apply base_init_no_configuration_error.
    + intros Hp Hlr. unfold Optimizer__init__.
      destruct params; [contradiction|]. destruct lr; [|contradiction].
      eexists; split; reflexivity.
Qed.

Lemma C5_init_configuration_errors_witness :
  (exists e,
     configuration_error e /\
     __init__ [0%nat] (Some 0.1) 0.9 0.5 0 true 1 = Raise e) /\
  (exists o, __init__ [0%nat] (Some 0.1) 0.9 0 0 true 1 = Ret o /\
             state o = ∅).
Proof.
  split.
  - apply (C5_init_configuration_errors [0%nat] (Some 0.1) 0.9 0.5 0 true 1).
    right; right. split; [reflexivity|]. right. intros H. discriminate H.
  - apply (C5_init_configuration_errors [0%nat] (Some 0.1) 0.9 0 0 true 1).
    + intros [H|[H|[_ [H|H]]]]; [lra|lra|lra|apply H; reflexivity].
    + discriminate.
    + discriminate.
Defined.

(** C6 (as stated, refuted).  A non-positive learning rate is accepted:
    the constructor returns an optimizer. *)
Lemma C6_counterexample :
  -1 <= 0 /\
  __init__ [0%nat] (Some (-1)) 0 0 0 false 1 =
  Ret {| state := ∅;
         param_groups :=
           [ {| params := [0%nat]; lr := -1; momentum := 0; dampening := 0;
                weight_decay := 0; nesterov := false; delta := 1;
                num_steps := 0; transported := true |} ] |}.
Proof. split; [discriminate|reflexivity]. Qed.

(** C6 (amended).  The learning rate must be given at construction, but
    its sign is not checked: with the other hyperparameters valid and a
    non-empty parameter list, every given learning rate, positive or not,
    is stored in the group as it is, and only an omitted learning rate is
    refused, by the base class constructor. *)
Theorem C6_init_learning_rate
    p ps lr momentum dampening weight_decay nesterov delta :
  ~ invalid_config momentum dampening weight_decay nesterov delta ->
  __init__ (p :: ps) (Some lr) momentum dampening weight_decay nesterov delta
    = Ret {| state := ∅;
             param_groups :=
               [ {| params := p :: ps; lr := lr; momentum := momentum;
                    dampening := dampening; weight_decay := weight_decay;
                    nesterov := nesterov; delta := delta;
                    num_steps := 0; transported := true |} ] |} /\
  __init__ (p :: ps) None momentum dampening weight_decay nesterov delta
    = Raise (ValueError MissingRequired).
Proof.
  intros Hv. rewrite !(init_checks_pass _ _ _ _ _ _ _ Hv). split; reflexivity.
Qed.

Lemma C6_init_learning_rate_witness :
  __init__ [0%nat] (Some (-1)) 0 0 0 false 1
    = Ret {| state := ∅;
             param_groups :=
               [ {| params := [0%nat]; lr := -1; momentum := 0;
                    dampening := 0; weight_decay := 0; nesterov := false;
                    delta := 1; num_steps := 0; transported := true |} ] |} /\
  __init__ [0%nat] None 0 0 0 false 1 = Raise (ValueError MissingRequired).
Proof.
  apply (C6_init_learning_rate 0%nat [] (-1) 0 0 0 false 1).
  intros [H|[H|[H _]]]; [lra|lra|discriminate H].
Defined.

(** ** Reasoning about computations *)

Lemma bind_Ret_inv {S A B} (m : Py S A) (f : A -> Py S B) s b s' :
  bind m f s = (Ret b, s') ->
  exists a s1, m s = (Ret a, s1) /\ f a s1 = (Ret b, s').
Proof.
  unfold bind. destruct (m s) as [[a|e] s1]; [eauto|discriminate].
Qed.

Lemma bind_Ret {S A B} (m : Py S A) (f : A -> Py S B) s a s1 :
  m s = (Ret a, s1) -> bind m f s = f a s1.
Proof. unfold bind. intros ->. reflexivity. Qed.

Lemma bind_Raise {S A B} (m : Py S A) (f : A -> Py S B) s e s1 :
  m s = (Raise e, s1) -> bind m f s = (Raise e, s1).
Proof. unfold bind. intros ->. reflexivity. Qed.

Lemma py_div_store {S} x y (s : S) : snd (py_div x y s) = s.
Proof. unfold py_div. destruct (Qeq_bool y 0); reflexivity. Qed.

Lemma py_div_inv {S} x y (s s' : S) o : py_div x y s = (o, s') -> s' = s.
Proof. intros H. rewrite <- (py_div_store x y s), H. reflexivity. Qed.

Lemma py_div_Ret {S} x y (s : S) :
  ~ y == 0 -> py_div x y s = (Ret (x / y), s).
Proof.
  intros H. unfold py_div. destruct (Qeq_bool y 0) eqn:E; [|reflexivity].
  apply Qeq_bool_iff in E. contradiction.
Qed.

Section Preservation.
Context {S : Type} (R : S -> S -> Prop).
Hypothesis R_refl : forall s, R s s.
Hypothesis R_trans : forall s1 s2 s3, R s1 s2 -> R s2 s3 -> R s1 s3.

Lemma preserves_ret {A} (a : A) : preserves R (ret a).
Proof. intros s. apply R_refl. Qed.

Lemma preserves_raise {A} e : preserves R (raise (A:=A) e).
Proof. intros s. apply R_refl. Qed.

Lemma preserves_gets {A} (f : S -> A) : preserves R (gets f).
Proof. intros s. apply R_refl. Qed.

Lemma preserves_py_div x y : preserves R (py_div x y).
Proof. intros s. rewrite py_div_store. apply R_refl. Qed.

Lemma preserves_bind {A B} (m : Py S A) (f : A -> Py S B) :
  preserves R m -> (forall a, preserves R (f a)) -> preserves R (bind m f).
Proof.
  intros Hm Hf s. unfold bind. specialize (Hm s).
  destruct (m s) as [[a|e] s1]; cbn in *; [|assumption].
  eapply R_trans; [eassumption|apply Hf].
Qed.

(** The continuation may rely on what was read from the store. *)
Lemma preserves_gets_bind {A B} (g : S -> A) (f : A -> Py S B) :
  (forall s, R s (snd (f (g s) s))) -> preserves R (bind (gets g) f).
Proof. intros H s. apply H. Qed.

Lemma preserves_when b (m : Py S unit) :
  preserves R m -> preserves R (when b m).
Proof. destruct b; [trivial|intros _; apply preserves_ret]. Qed.

Lemma preserves_for_each {A} (l : list A) (body : A -> Py S unit) :
  (forall x, preserves R (body x)) -> preserves R (for_each l body).
Proof.
  intros H. induction l as [|x l IH]; cbn.
  - apply preserves_ret.
  - apply preserves_bind; [apply H|intros _; exact IH].
Qed.
End Preservation.

Lemma preserves_for_groups (R : World -> World -> Prop) body :
  (forall w, R w w) ->
  (forall w1 w2 w3, R w1 w2 -> R w2 w3 -> R w1 w3) ->
  (forall i g, preserves R (body i g)) ->
  preserves R (for_groups body).
Proof.
  intros Hr Ht Hb. unfold for_groups.
  apply preserves_bind; [assumption|apply preserves_gets; assumption|].
  intros n. apply preserves_for_each; [assumption..|].
  intros i. unfold group_loop_body.
  apply preserves_bind; [assumption|apply preserves_gets; assumption|].
  intros [g|]; [apply Hb|apply preserves_ret; assumption].
Qed.

(** ** Locality of the loop bodies *)

Lemma view_put_view_eq p v w : view (put_view p v w) p = v.
Proof.
  unfold view, put_view; cbn.
  rewrite lookup_total_insert_eq, lookup_insert_eq. destruct v; reflexivity.
Qed.

Lemma untouched_refl p w : untouched p w w.
Proof. split; reflexivity. Qed.

Lemma untouched_trans p w1 w2 w3 :
  untouched p w1 w2 -> untouched p w2 w3 -> untouched p w1 w3.
Proof. intros [H1 H2] [H3 H4]. split; congruence. Qed.

Lemma untouched_if_no_grad_refl p w : untouched_if_no_grad p w w.
Proof. intros _. apply untouched_refl. Qed.

Lemma untouched_if_no_grad_trans p w1 w2 w3 :
  untouched_if_no_grad p w1 w2 -> untouched_if_no_grad p w2 w3 ->
  untouched_if_no_grad p w1 w3.
Proof.
  intros H12 H23 Hg. specialize (H12 Hg).
  eapply untouched_trans; [exact H12|]. apply H23.
  destruct H12 as [-> _]. exact Hg.
Qed.

Lemma put_view_untouched p q v w : p <> q -> untouched p w (put_view q v w).
Proof.
  intros Hne. unfold untouched, put_view; cbn.
  rewrite lookup_total_insert_ne, lookup_insert_ne by congruence. tauto.
Qed.

Lemma with_param_untouched {A} p q (body : Py PView A) :
  p <> q -> preserves (untouched p) (with_param q body).
Proof.
  intros Hne w. unfold with_param.
  destruct (body (view w q)) as [o v']. cbn. apply put_view_untouched, Hne.
Qed.

Lemma with_param_same_groups {A} q (body : Py PView A) :
  preserves same_groups (with_param q body).
Proof.
  intros w. unfold with_param.
  destruct (body (view w q)) as [o v']. reflexivity.
Qed.

Lemma update_group_untouched p i f : preserves (untouched p) (update_group i f).
Proof. intros w. split; reflexivity. Qed.

Lemma same_groups_trans w1 w2 w3 :
  same_groups w1 w2 -> same_groups w2 w3 -> same_groups w1 w3.
Proof. unfold same_groups. congruence. Qed.

(** ** [step] and parameters without a gradient *)

(** The body of the loop over [group['params']], as [step_group] runs it. *)
Lemma step_loop_body_untouched_if_no_grad p q group gamma future_transport :
  preserves (untouched_if_no_grad p)
    (step_loop_body group gamma future_transport q).
Proof.
  apply preserves_gets_bind. intros w Hg.
  destruct (decide (p = q)) as [->|Hne].
  - rewrite Hg. apply untouched_refl.
  - destruct (grad (parameters w !!! q)); [|apply untouched_refl].
    apply with_param_untouched, Hne.
Qed.

Lemma step_group_untouched_if_no_grad p i group :
  preserves (untouched_if_no_grad p) (step_group i group).
Proof.
  pose proof (untouched_if_no_grad_refl p) as Hr.
  pose proof (untouched_if_no_grad_trans p) as Ht.
  unfold step_group.
  repeat (apply preserves_bind; [assumption|apply preserves_py_div; assumption|];
          intros ?).
  apply preserves_bind; [assumption| |].
  - apply preserves_for_each; [assumption..|].
    intros q. apply step_loop_body_untouched_if_no_grad.
  - intros _ w _. apply update_group_untouched.
Qed.

Lemma step_untouched_if_no_grad {L} p :
  preserves (untouched_if_no_grad p) (step (L:=L) None).
Proof.
  pose proof (untouched_if_no_grad_refl p) as Hr.
  pose proof (untouched_if_no_grad_trans p) as Ht.
  unfold step.
  apply preserves_bind; [assumption|apply preserves_ret; assumption|].
  intros loss. apply preserves_bind; [assumption| |].
  - apply preserves_for_groups; [assumption..|].
    intros i g. apply step_group_untouched_if_no_grad.
  - intros _. apply preserves_ret; assumption.
Qed.

(** The group dictionaries after a completed [step]. *)

Lemma step_loop_same_groups l group gamma future_transport :
  preserves same_groups
    (for_each l (step_loop_body group gamma future_transport)).
Proof.
  apply preserves_for_each; [reflexivity|apply same_groups_trans|].
  intros p. apply preserves_bind; [apply same_groups_trans| |].
  - apply preserves_gets. reflexivity.
  - intros [g|]; [apply with_param_same_groups|apply preserves_ret; reflexivity].
Qed.

Lemma step_loop_same_groups_inv l group gamma future_transport w o w' :
  for_each l (step_loop_body group gamma future_transport) w = (o, w') ->
  param_groups (self w') = param_groups (self w).
Proof.
  intros H. pose proof (step_loop_same_groups l group gamma future_transport w)
    as E.
  rewrite H in E. exact E.
Qed.

Lemma step_group_Ret_groups i group w w' :
  step_group i group w = (Ret tt, w') ->
  param_groups (self w') =
  alter (set_num_steps (num_steps group + 1)) i (param_groups (self w)).
Proof.
  unfold step_group. intros H.
  apply bind_Ret_inv in H as (gamma & w1 & H1 & H).
  apply bind_Ret_inv in H as (fg & w2 & H2 & H).
  apply bind_Ret_inv in H as (ft & w3 & H3 & H).
  apply bind_Ret_inv in H as ([] & w4 & H4 & H).
  apply py_div_inv in H1 as ->. apply py_div_inv in H2 as ->.
  apply py_div_inv in H3 as ->.
  pose proof (step_loop_same_groups (params group) group gamma ft w) as E4.
  rewrite H4 in E4. unfold same_groups in E4. cbn in E4.
  injection H as <-. cbn. rewrite E4. reflexivity.
Qed.

Lemma step_groups_from i k w w' :
  (i + k)%nat = length (param_groups (self w)) ->
  for_each (seq i k) (group_loop_body step_group) w = (Ret tt, w') ->
  param_groups (self w') =
  take i (param_groups (self w)) ++ map advance (drop i (param_groups (self w))).
Proof.
  revert i w. induction k as [|k IH]; intros i w Hlen H.
  - injection H as <-. rewrite Nat.add_0_r in Hlen.
    rewrite Hlen, firstn_all, drop_all. cbn. rewrite app_nil_r. reflexivity.
  - cbn [seq for_each] in H.
    apply bind_Ret_inv in H as ([] & w1 & H1 & H).
    unfold group_loop_body, bind at 1, gets at 1 in H1.
    destruct (param_groups (self w) !! i) as [g|] eqn:Eg.
    2:{ apply lookup_ge_None in Eg. lia. }
    apply step_group_Ret_groups in H1.
    apply IH in H.
    2:{ rewrite H1, length_alter. lia. }
    rewrite H, H1.
    rewrite take_alter_lt by lia. rewrite drop_alter_lt by lia.
    rewrite (take_S_r _ _ _ Eg). rewrite (drop_S _ _ _ Eg).
    rewrite alter_app_r_alt by (rewrite length_take; lia).
    rewrite length_take.
    replace (i - i `min` length (param_groups (self w)))%nat with 0%nat by lia.
    cbn. rewrite <- app_assoc. reflexivity.
Qed.

Lemma step_Ret_groups {L} (w w' : World) (loss : option L) :
  step None w = (Ret loss, w') ->
  param_groups (self w') = map advance (param_groups (self w)).
Proof.
  unfold step. intros H.
  apply bind_Ret_inv in H as (l0 & w0 & H0 & H). injection H0 as <- <-.
  apply bind_Ret_inv in H as ([] & w1 & H1 & H). injection H as _ <-.
  unfold for_groups in H1.
  apply bind_Ret_inv in H1 as (n & w2 & H2 & H1). injection H2 as <- <-.
  apply step_groups_from in H1; [|reflexivity]. exact H1.
Qed.

(** A [step] with a closure runs the closure first and then does what a
    [step] without closure does on the store the closure leaves; the
    statements below are about that second part. *)
Lemma step_with_closure {L} (closure : Py World L) (w : World) :
  step (Some closure) w =
  match closure w with
  | (Ret l, w1) =>
      match step (L:=L) None w1 with
      | (Ret _, w') => (Ret (Some l), w')
      | (Raise e, w') => (Raise e, w')
      end
  | (Raise e, w1) => (Raise e, w1)
  end.
Proof.
  unfold step, bind, ret. destruct (closure w) as [[l|e] w1]; [|reflexivity].
  destruct (for_groups step_group w1) as [[[]|e] w']; reflexivity.
Qed.

(** C7. In every [step] call, a parameter whose gradient is absent keeps
    its exposed value and its state entry (both velocities and
    [true_params]), whatever happens to the other parameters; and when the
    call returns, the [num_steps] of every group has grown by exactly
    one. *)
Theorem C7_step_skips_parameters_without_gradient
    {L} (p : nat) (w : World) :
  grad (parameters w !!! p) = None ->
  let w' := snd (step (L:=L) None w) in
  parameters w' !!! p = parameters w !!! p /\
  state (self w') !! p = state (self w) !! p /\
  (forall loss, fst (step (L:=L) None w) = Ret loss ->
     map num_steps (param_groups (self w')) =
     map (fun g => num_steps g + 1)%Z (param_groups (self w))).
Proof.
  intros Hg w'. destruct (step_untouched_if_no_grad (L:=L) p w Hg) as [H1 H2].
  split; [exact H1|]. split; [exact H2|].
  intros loss Hret. subst w'.
  destruct (step None w) as [o w1] eqn:E. cbn in *. subst o.
  rewrite (step_Ret_groups _ _ _ E), map_map. reflexivity.
Qed.

Lemma C7_step_skips_parameters_without_gradient_witness :
  let w := two_params_world in
  let w' := snd (step (L:=unit) None w) in
  parameters w' !!! 1%nat = parameters w !!! 1%nat /\
  state (self w') !! 1%nat = state (self w) !! 1%nat /\
  map num_steps (param_groups (self w')) =
  map (fun g => num_steps g + 1)%Z (param_groups (self w)).
Proof.
  destruct (C7_step_skips_parameters_without_gradient (L:=unit) 1%nat
              two_params_world eq_refl) as (H1 & H2 & H3).
  split; [exact H1|]. split; [exact H2|]. apply (H3 None). reflexivity.
Defined.

(** ** [eval] and [train] before any [step] *)

Lemma with_param_missing_true_params p w (k : buf -> Py PView unit) :
  st_true_params (param_state (view w p)) = None ->
  with_param p (let* true_params := getitem Ktrue_params in k true_params) w
  = (Raise (KeyError Ktrue_params), put_view p (view w p) w).
Proof.
  intros H. unfold with_param. set (v := view w p) in *.
  unfold bind, getitem, bind, read, dict_get. rewrite H. reflexivity.
Qed.

Lemma view_put_view p q w : view (put_view q (view w q) w) p = view w p.
Proof.
  destruct (decide (p = q)) as [->|Hne].
  - apply view_put_view_eq.
  - unfold view, put_view; cbn.
    rewrite lookup_total_insert_ne, lookup_insert_ne by congruence.
    reflexivity.
Qed.

Lemma same_views_if_no_true_params_refl w : same_views_if_no_true_params w w.
Proof. intros _ p. reflexivity. Qed.

Lemma same_views_if_no_true_params_trans w1 w2 w3 :
  same_views_if_no_true_params w1 w2 -> same_views_if_no_true_params w2 w3 ->
  same_views_if_no_true_params w1 w3.
Proof.
  intros H12 H23 Hn. specialize (H12 Hn).
  assert (no_true_params w2) as Hn2 by (intros p; rewrite H12; apply Hn).
  intros p. rewrite (H23 Hn2 p). apply H12.
Qed.

Lemma eval_group_same_views i group :
  preserves same_views_if_no_true_params (eval_group i group).
Proof.
  pose proof same_views_if_no_true_params_refl as Hr.
  pose proof same_views_if_no_true_params_trans as Ht.
  unfold eval_group. apply preserves_when; [assumption|].
  apply preserves_bind; [assumption| |].
  - apply preserves_for_each; [assumption..|].
    intros p w Hn. rewrite with_param_missing_true_params by apply Hn.
    intros q. apply view_put_view.
  - intros _ w _ q. reflexivity.
Qed.

Lemma eval_same_views : preserves same_views_if_no_true_params eval.
Proof.
  apply preserves_for_groups.
  - apply same_views_if_no_true_params_refl.
  - apply same_views_if_no_true_params_trans.
  - apply eval_group_same_views.
Qed.

Lemma same_views_parameters w w' q :
  same_views w w' -> parameters w' !!! q = parameters w !!! q.
Proof. intros H. specialize (H q). unfold view in H. congruence. Qed.

(** The outcome of [eval] before any [step]: the first group that is
    transported and has a parameter raises. *)
Lemma eval_groups_from i k w :
  (i + k)%nat = length (param_groups (self w)) ->
  no_true_params w ->
  fst (for_each (seq i k) (group_loop_body eval_group) w)
  = if forallb quiet (drop i (param_groups (self w)))
    then Ret tt else Raise (KeyError Ktrue_params).
Proof.
  revert i w. induction k as [|k IH]; intros i w Hlen Hn.
  - rewrite Nat.add_0_r in Hlen. rewrite Hlen, drop_all. reflexivity.
  - cbn [seq for_each].
    destruct (param_groups (self w) !! i) as [g|] eqn:Eg.
    2:{ apply lookup_ge_None in Eg. lia. }
    rewrite (drop_S _ _ _ Eg). cbn [forallb].
    unfold bind at 1. unfold group_loop_body, bind at 1, gets at 1. rewrite Eg.
    unfold eval_group, quiet.
    destruct (transported g); cbn [when negb orb andb].
    + destruct (params g) as [|p ps]; cbn [for_each].
      * unfold bind at 1. cbn [ret].
        unfold update_group, modify.
        rewrite IH; cbn.
        -- rewrite drop_alter_lt by lia. reflexivity.
        -- rewrite length_alter. lia.
        -- exact Hn.
      * unfold bind at 1. unfold bind at 1.
        rewrite with_param_missing_true_params by apply Hn. reflexivity.
    + cbn. apply IH; [lia|exact Hn].
Qed.

Lemma eval_outcome w :
  no_true_params w ->
  fst (eval w) = if forallb quiet (param_groups (self w))
                 then Ret tt else Raise (KeyError Ktrue_params).
Proof.
  intros Hn. unfold eval, for_groups. unfold bind at 1, gets at 1.
  apply (eval_groups_from 0); [reflexivity|exact Hn].
Qed.

Lemma for_each_skip {S A} (l : list A) (body : A -> Py S unit) s :
  (forall x, body x s = (Ret tt, s)) -> for_each l body s = (Ret tt, s).
Proof.
  intros H. induction l as [|x l IH]; [reflexivity|].
  cbn. unfold bind. rewrite H. exact IH.
Qed.

Lemma train_group_num_steps_0 i g w :
  num_steps g = 0%Z -> 0 < delta g -> train_group i g w = (Ret tt, w).
Proof.
  intros Hn Hd. unfold train_group. rewrite Hn.
  assert (~ inject_Z 0 + delta g == 0) as H1 by (unfold inject_Z; lra).
  rewrite (bind_Ret _ _ _ _ _ (py_div_Ret _ _ w H1)).
  assert (~ 1 - inject_Z 0 / (inject_Z 0 + delta g) == 0) as H2
    by (unfold inject_Z, Qdiv; lra).
  rewrite (bind_Ret _ _ _ _ _ (py_div_Ret _ _ w H2)).
  rewrite andb_false_r. reflexivity.
Qed.

Lemma train_num_steps_0 w :
  Forall (fun g => num_steps g = 0%Z /\ 0 < delta g) (param_groups (self w)) ->
  train w = (Ret tt, w).
Proof.
  intros H. unfold train, for_groups. unfold bind at 1, gets at 1.
  apply for_each_skip. intros i. unfold group_loop_body, bind, gets.
  destruct (param_groups (self w) !! i) as [g|] eqn:Eg; [|reflexivity].
  rewrite Forall_forall in H.
  destruct (H g) as [Hn Hd]; [eapply list_elem_of_lookup_2, Eg|].
  apply train_group_num_steps_0; assumption.
Qed.

Lemma no_true_params_empty w : state (self w) = ∅ -> no_true_params w.
Proof. intros H p. unfold view. cbn. rewrite H, lookup_empty. reflexivity. Qed.

Lemma eval_first_group_raises w g rest p ps :
  param_groups (self w) = g :: rest ->
  transported g = true ->
  params g = p :: ps ->
  st_true_params (param_state (view w p)) = None ->
  eval w = (Raise (KeyError Ktrue_params), put_view p (view w p) w).
Proof.
  intros Hg Ht Hp Hs. unfold eval, for_groups.
  unfold bind at 1, gets at 1. rewrite Hg. cbn [length seq for_each].
  unfold bind at 1. unfold group_loop_body, bind at 1, gets at 1.
  rewrite Hg. cbn [lookup list_lookup].
  unfold eval_group. rewrite Ht, Hp. cbn [when for_each].
  unfold bind at 1. unfold bind at 1.
  rewrite with_param_missing_true_params by exact Hs. reflexivity.
Qed.

(** Before the first step: when every group has [num_steps == 0] and no
    parameter has a [true_params] buffer yet, [train()] changes nothing,
    [train()] followed by [eval()] writes no exposed value, and the pair
    returns exactly when no group is both transported and non-empty. *)
Lemma train_then_eval_before_first_step (w : World) :
  Forall (fun g => num_steps g = 0%Z /\ 0 < delta g) (param_groups (self w)) ->
  no_true_params w ->
  train w = (Ret tt, w) /\
  (forall p, data (parameters (snd ((train ;; eval) w)) !!! p)
             = data (parameters w !!! p)) /\
  fst ((train ;; eval) w)
  = if forallb quiet (param_groups (self w))
    then Ret tt else Raise (KeyError Ktrue_params).
Proof.
  intros Hg Hn. pose proof (train_num_steps_0 w Hg) as Ht.
  split; [exact Ht|]. rewrite (bind_Ret _ _ _ _ _ Ht). split.
  - intros p. f_equal. apply same_views_parameters.
    apply eval_same_views, Hn.
  - apply eval_outcome, Hn.
Qed.

(** C8 (the code departs from the claim).  On a freshly built optimizer,
    where [num_steps] is 0 and [transported] is set, [train()] returns and
    changes nothing: its test [not transported and num_steps > 0] keeps
    it away from the buffers.  The [eval()] that follows tests
    [transported] only: it reads [true_params], which no step has
    created, and raises [KeyError: 'true_params'], so the round trip does
    not complete.  The exposed value is still the initial one. *)
Theorem C8_train_then_eval_raises :
  let w := fresh_world [1] None 0.1 0 0 0 false 1 in
  map num_steps (param_groups (self w)) = [0%Z] /\
  map transported (param_groups (self w)) = [true] /\
  train w = (Ret tt, w) /\
  fst ((train ;; eval) w) = Raise (KeyError Ktrue_params) /\
  data (parameters (snd ((train ;; eval) w)) !!! 0%nat) = [1].
Proof. repeat split; vm_compute; reflexivity. Qed.

(** C10. [eval()] before any [step]: when the first group is in its
    initial state ([transported] set, no per-parameter state yet) and has
    at least one parameter, the call raises the missing-state error
    [KeyError: 'true_params']; it is not a no-op that returns, no
    parameter value is copied and the group stays [transported]. *)
Theorem C10_eval_before_first_step (w : World) (g : Group) rest :
  param_groups (self w) = g :: rest ->
  transported g = true ->
  num_steps g = 0%Z ->
  params g <> [] ->
  state (self w) = ∅ ->
  fst (eval w) = Raise (KeyError Ktrue_params) /\
  (forall p, parameters (snd (eval w)) !!! p = parameters w !!! p) /\
  param_groups (self (snd (eval w))) = param_groups (self w).
Proof.
  intros Hg Ht _ Hp Hs.
  destruct (params g) as [|p ps] eqn:Ep; [contradiction|].
  rewrite (eval_first_group_raises w g rest p ps Hg Ht Ep)
    by (apply no_true_params_empty, Hs).
  cbn [fst snd]. split; [reflexivity|]. split; [|reflexivity].
  intros q. apply (same_views_parameters w). intros r. apply view_put_view.
Qed.

Lemma C10_eval_before_first_step_witness :
  let w := fresh_world [1] None 0.1 0 0 0 false 1 in
  fst (eval w) = Raise (KeyError Ktrue_params) /\
  (forall p, parameters (snd (eval w)) !!! p = parameters w !!! p) /\
  param_groups (self (snd (eval w))) = param_groups (self w).
Proof.
  apply (C10_eval_before_first_step
           (fresh_world [1] None 0.1 0 0 0 false 1)
           {| params := [0%nat]; lr := 0.1; momentum := 0; dampening := 0;
              weight_decay := 0; nesterov := false; delta := 1;
              num_steps := 0; transported := true |} []);
    try reflexivity.
  discriminate.
Defined.

(** ** Tensors *)

Lemma tensor_eq_refl a : a =t= a.
Proof. induction a; constructor; [reflexivity|assumption]. Qed.

Lemma tensor_eq_sym a b : a =t= b -> b =t= a.
Proof. induction 1; constructor; [symmetry|]; assumption. Qed.

Lemma tensor_eq_trans a b c : a =t= b -> b =t= c -> a =t= c.
Proof.
  intros H. revert c.
  induction H as [|x y a b Hxy Hab IH]; intros c Hc; inversion Hc; subst.
  - constructor.
  - constructor; [eapply Qeq_trans; eassumption|apply IH; assumption].
Qed.

Lemma tensor_eq_length a b : a =t= b -> length a = length b.
Proof. induction 1; cbn; congruence. Qed.

Lemma same_shape_true a b : length a = length b -> same_shape a b = true.
Proof. intros H. unfold same_shape. rewrite H. apply Nat.eqb_refl. Qed.

Lemma same_shape_length a b : same_shape a b = true -> length a = length b.
Proof. apply Nat.eqb_eq. Qed.

Lemma length_axpy a alpha b :
  length a = length b -> length (axpy a alpha b) = length a.
Proof.
  revert b. induction a as [|x a IH]; intros [|y b] H; cbn in *; try lia.
  rewrite IH; lia.
Qed.

Lemma length_zeros n : length (zeros n) = n.
Proof. apply repeat_length. Qed.

Lemma length_scale c a : length (scale c a) = length a.
Proof. apply length_map. Qed.

Lemma axpy_proper a a' alpha alpha' b b' :
  a =t= a' -> alpha == alpha' -> b =t= b' ->
  axpy a alpha b =t= axpy a' alpha' b'.
Proof.
  intros Ha Hal. revert b b'.
  induction Ha as [|x x' a a' Hx Ha IH]; intros b b' Hb.
  - destruct b, b'; constructor.
  - destruct Hb as [|y y' b b' Hy Hb]; cbn; constructor.
    + rewrite Hx, Hal, Hy. reflexivity.
    + apply IH, Hb.
Qed.

Lemma axpy_zeros alpha b : axpy (zeros (length b)) alpha b =t= scale alpha b.
Proof.
  induction b as [|y b IH]; cbn; constructor; [|exact IH]. ring.
Qed.

Lemma scale_1 b : scale 1 b =t= b.
Proof. induction b as [|y b IH]; cbn; constructor; [ring|exact IH]. Qed.

Lemma axpy_zeros_1 n b : n = length b -> axpy (zeros n) 1 b =t= b.
Proof.
  intros ->. eapply tensor_eq_trans; [apply axpy_zeros|apply scale_1].
Qed.

(** ** The coefficients of [step] *)

Lemma step_denominators (g : Group) :
  0 < delta g -> (0 <= num_steps g)%Z ->
  ~ inject_Z (num_steps g) + delta g == 0 /\
  ~ inject_Z (num_steps g + 1) + delta g == 0 /\
  ~ 1 - future_gamma_of g == 0.
Proof.
  intros Hd Hn.
  assert (0 <= inject_Z (num_steps g)) as H0.
  { change 0 with (inject_Z 0). rewrite <- Zle_Qle. exact Hn. }
  assert (0 < inject_Z (num_steps g + 1)) as H1.
  { change 0 with (inject_Z 0). rewrite <- Zlt_Qlt. lia. }
  split; [lra|]. split; [lra|].
  unfold future_gamma_of. intros H.
  assert (inject_Z (num_steps g + 1) / (inject_Z (num_steps g + 1) + delta g)
          == 1) as E by lra.
  apply (Qmult_inj_r _ _ (inject_Z (num_steps g + 1) + delta g)) in E; [|lra].
  rewrite Qmult_comm, Qmult_div_r in E by lra. lra.
Qed.

Lemma py_div_Ret_inv {S} x y (s s' : S) q :
  py_div x y s = (Ret q, s') -> q = x / y /\ s' = s.
Proof.
  unfold py_div. destruct (Qeq_bool y 0); [discriminate|].
  intros [= <- <-]. split; reflexivity.
Qed.

(** ** What [step] does to one parameter *)

Lemma for_each_app {S A} (l1 l2 : list A) (body : A -> Py S unit) s :
  for_each (l1 ++ l2) body s = (for_each l1 body ;; for_each l2 body) s.
Proof.
  revert s. induction l1 as [|x l1 IH]; intros s; cbn.
  - reflexivity.
  - unfold bind. destruct (body x s) as [[[]|e] s1]; [|reflexivity].
    apply IH.
Qed.

Lemma preserves_for_each_in {S A} (R : S -> S -> Prop) (l : list A)
    (body : A -> Py S unit) :
  (forall s, R s s) ->
  (forall s1 s2 s3, R s1 s2 -> R s2 s3 -> R s1 s3) ->
  (forall x, x ∈ l -> preserves R (body x)) ->
  preserves R (for_each l body).
Proof.
  intros Hr Ht H. induction l as [|x l IH]; cbn.
  - apply preserves_ret, Hr.
  - apply preserves_bind; [exact Ht|apply H; left|intros _; apply IH].
    intros y Hy. apply H. right. exact Hy.
Qed.

Lemma untouched_view p w w' : untouched p w w' -> view w' p = view w p.
Proof. intros [H1 H2]. unfold view. rewrite H1, H2. reflexivity. Qed.

Lemma step_loop_body_untouched p q group gamma future_transport :
  p <> q ->
  preserves (untouched p) (step_loop_body group gamma future_transport q).
Proof.
  intros Hne. unfold step_loop_body.
  apply preserves_bind; [apply untouched_trans| |].
  - apply preserves_gets, untouched_refl.
  - intros [g|]; [apply with_param_untouched, Hne|].
    apply preserves_ret, untouched_refl.
Qed.

Lemma step_loop_untouched p l group gamma future_transport :
  p ∉ l ->
  preserves (untouched p)
    (for_each l (step_loop_body group gamma future_transport)).
Proof.
  intros Hp. apply preserves_for_each_in.
  - apply untouched_refl.
  - apply untouched_trans.
  - intros q Hq. apply step_loop_body_untouched. intros ->. contradiction.
Qed.

Lemma step_loop_at group gamma future_transport p g l :
  forall w w',
  NoDup l -> p ∈ l ->
  grad (parameters w !!! p) = Some g ->
  for_each l (step_loop_body group gamma future_transport) w = (Ret tt, w') ->
  step_param group gamma future_transport (view w p) = (Ret tt, view w' p).
Proof.
  induction l as [|q l IH]; intros w w' Hnd Hin Hg H.
  - inversion Hin.
  - apply NoDup_cons in Hnd as [Hq Hnd]. cbn [for_each] in H.
    apply bind_Ret_inv in H as ([] & w1 & H1 & H).
    destruct (decide (p = q)) as [->|Hne].
    + unfold step_loop_body, bind, gets in H1. rewrite Hg in H1.
      unfold with_param in H1.
      destruct (step_param group gamma future_transport (view w q))
        as [o v1] eqn:E.
      injection H1 as Ho Hw. subst o w1.
      pose proof (step_loop_untouched q l group gamma future_transport Hq
                    (put_view q v1 w)) as Hu.
      rewrite H in Hu. cbn in Hu. apply untouched_view in Hu.
      rewrite Hu, view_put_view_eq. reflexivity.
    + pose proof (step_loop_body_untouched p q group gamma future_transport
                    Hne w) as Hu.
      rewrite H1 in Hu. cbn in Hu.
      apply elem_of_cons in Hin as [?|Hin]; [contradiction|].
      rewrite <- (untouched_view _ _ _ Hu). apply (IH w1 w' Hnd Hin); [|exact H].
      destruct Hu as [-> _]. exact Hg.
Qed.

Lemma step_group_groups i group w :
  let gs' := param_groups (self (snd (step_group i group w))) in
  gs' = param_groups (self w) \/
  gs' = alter (set_num_steps (num_steps group + 1)) i (param_groups (self w)).
Proof.
  unfold step_group, bind.
  destruct (py_div _ _ w) as [[gamma|e] w1] eqn:E1;
    apply py_div_inv in E1 as ->; [|left; reflexivity].
  destruct (py_div _ _ w) as [[fg|e] w1] eqn:E2;
    apply py_div_inv in E2 as ->; [|left; reflexivity].
  destruct (py_div _ _ w) as [[ft|e] w1] eqn:E3;
    apply py_div_inv in E3 as ->; [|left; reflexivity].
  pose proof (step_loop_same_groups (params group) group gamma ft w) as E4.
  unfold same_groups in E4.
  destruct (for_each _ _ w) as [[[]|e] w4]; cbn in *; rewrite E4; auto.
Qed.

Lemma only_in_group_alter p j i n w w' :
  only_in_group p j w ->
  param_groups (self w') = param_groups (self w) \/
  param_groups (self w') = alter (set_num_steps n) i (param_groups (self w)) ->
  only_in_group p j w'.
Proof.
  intros Ho [E|E] j' g' Hne; rewrite E; [apply Ho, Hne|].
  rewrite list_lookup_alter. case_decide as Hd; [subst j'|apply Ho, Hne].
  destruct (param_groups (self w) !! i) as [g0|] eqn:E0; cbn; [|discriminate].
  intros [= <-]. cbn. eapply Ho; [exact Hne|exact E0].
Qed.

Lemma step_group_untouched p i group :
  p ∉ params group -> preserves (untouched p) (step_group i group).
Proof.
  intros Hp. pose proof (untouched_refl p) as Hr.
  pose proof (untouched_trans p) as Ht. unfold step_group.
  repeat (apply preserves_bind; [assumption|apply preserves_py_div; assumption|];
          intros ?).
  apply preserves_bind; [assumption|apply step_loop_untouched, Hp|].
  intros _. apply update_group_untouched.
Qed.

Lemma kept_apart_refl p j w : kept_apart p j w w.
Proof. intros H. split; [apply untouched_refl|]. split; [exact H|reflexivity]. Qed.

Lemma kept_apart_trans p j w1 w2 w3 :
  kept_apart p j w1 w2 -> kept_apart p j w2 w3 -> kept_apart p j w1 w3.
Proof.
  intros H12 H23 H1. destruct (H12 H1) as (Hu & H2 & Hj).
  destruct (H23 H2) as (Hu' & H3 & Hj').
  split; [eapply untouched_trans; eassumption|]. split; [exact H3|congruence].
Qed.

Lemma group_loop_body_unfold body i w :
  group_loop_body body i w =
  match param_groups (self w) !! i with
  | Some g => body i g w
  | None => (Ret tt, w)
  end.
Proof.
  unfold group_loop_body, bind, gets.
  destruct (param_groups (self w) !! i); reflexivity.
Qed.

Lemma step_group_kept_apart p j i :
  i <> j -> preserves (kept_apart p j) (group_loop_body step_group i).
Proof.
  intros Hne w Ho. rewrite group_loop_body_unfold.
  destruct (param_groups (self w) !! i) as [g|] eqn:Eg.
  2:{ apply kept_apart_refl, Ho. }
  pose proof (step_group_groups i g w) as Hgs. cbn in Hgs.
  split; [apply step_group_untouched; eapply Ho; eassumption|].
  split; [eapply only_in_group_alter; eassumption|].
  destruct Hgs as [->| ->]; [reflexivity|].
  apply list_lookup_alter_ne, Hne.
Qed.

Lemma step_groups_kept_apart p j l :
  j ∉ l ->
  preserves (kept_apart p j) (for_each l (group_loop_body step_group)).
Proof.
  intros Hj. apply preserves_for_each_in.
  - apply kept_apart_refl.
  - apply kept_apart_trans.
  - intros i Hi. apply step_group_kept_apart. intros ->. contradiction.
Qed.

Lemma step_group_Ret_inv i group w w' :
  step_group i group w = (Ret tt, w') ->
  exists w1,
    for_each (params group)
      (step_loop_body group (gamma_of group) (future_transport_of group)) w
    = (Ret tt, w1) /\
    w' = snd (update_group i (set_num_steps (num_steps group + 1)) w1).
Proof.
  unfold step_group. intros H.
  apply bind_Ret_inv in H as (gamma & w1 & H1 & H).
  apply bind_Ret_inv in H as (fg & w2 & H2 & H).
  apply bind_Ret_inv in H as (ft & w3 & H3 & H).
  apply bind_Ret_inv in H as ([] & w4 & H4 & H).
  apply py_div_Ret_inv in H1 as [-> ->]. apply py_div_Ret_inv in H2 as [-> ->].
  apply py_div_Ret_inv in H3 as [-> ->].
  exists w4. split; [exact H4|]. injection H as <-. reflexivity.
Qed.

(** In a completed [step], a parameter that has a gradient and sits in one
    group only, once in its list, goes through [step_param] exactly once,
    with the coefficients of its group. *)
Lemma step_at {L} (w w' : World) (loss : option L) j group p g :
  param_groups (self w) !! j = Some group ->
  p ∈ params group ->
  NoDup (params group) ->
  only_in_group p j w ->
  grad (parameters w !!! p) = Some g ->
  step None w = (Ret loss, w') ->
  step_param group (gamma_of group) (future_transport_of group) (view w p)
  = (Ret tt, view w' p).
Proof.
  intros Hj Hin Hnd Ho Hg H. unfold step in H.
  apply bind_Ret_inv in H as (l0 & w0 & H0 & H). injection H0 as <- <-.
  apply bind_Ret_inv in H as ([] & w3 & H & Hr). injection Hr as _ <-.
  unfold for_groups in H.
  apply bind_Ret_inv in H as (n & w0 & H0 & H). injection H0 as <- <-.
  pose proof (lookup_lt_Some _ _ _ Hj) as Hlt.
  replace (length (param_groups (self w)))
    with (j + S (length (param_groups (self w)) - S j))%nat in H by lia.
  rewrite seq_app, for_each_app in H. cbn [seq for_each Nat.add] in H.
  apply bind_Ret_inv in H as ([] & wa & Ha & H).
  apply bind_Ret_inv in H as ([] & wb & Hb & Hc).
  (* the groups before the [j]-th *)
  pose proof (step_groups_kept_apart p j (seq 0 j)) as Ka.
  specialize (Ka ltac:(rewrite elem_of_seq; lia) w Ho).
  rewrite Ha in Ka. cbn in Ka. destruct Ka as (Ua & Oa & Ja).
  (* the [j]-th group *)
  rewrite group_loop_body_unfold, Ja, Hj in Hb.
  apply step_group_Ret_inv in Hb as (w1 & Hloop & ->).
  assert (grad (parameters wa !!! p) = Some g) as Hga.
  { destruct Ua as [-> _]. exact Hg. }
  pose proof (step_loop_at _ _ _ p g _ wa w1 Hnd Hin Hga Hloop) as Hs.
  rewrite (untouched_view _ _ _ Ua) in Hs.
  (* the groups after it *)
  pose proof (step_groups_kept_apart p j
                (seq (S j) (length (param_groups (self w)) - S j))) as Kc.
  specialize (Kc ltac:(rewrite elem_of_seq; lia)).
  match type of Hc with for_each _ _ ?wb = _ => specialize (Kc wb) end.
  rewrite Hc in Kc. cbn [snd] in Kc.
  destruct Kc as (Uc & _).
  { eapply (only_in_group_alter p j j); [exact Oa|].
    right. cbn. rewrite (step_loop_same_groups_inv _ _ _ _ _ _ _ Hloop).
    reflexivity. }
  rewrite (untouched_view _ _ _ Uc). exact Hs.
Qed.

(** ** Running the per-parameter code *)

Arguments bind {S A B} m f s /.
Arguments ret {S A} a s /.
Arguments raise {S A} e s /.
Arguments gets {S A} f s /.
Arguments modify {S} f s /.
Arguments when {S} b m s /.
Arguments read b v /.
Arguments write b t v /.
Arguments contains k v /.
Arguments getitem k v /.
Arguments setitem k t v /.
Arguments zeros_like b v /.
Arguments clone b v /.
Arguments add_ a alpha b v /.
Arguments mul_ a c v /.
Arguments copy_ a b v /.
Arguments same_shape : simpl never.
Arguments zeros : simpl never.
Arguments axpy : simpl never.
Arguments scale : simpl never.

(** [step] on an optimizer with one group and one parameter. *)
Lemma step_one_param {L} (w : World) group p g :
  param_groups (self w) = [group] ->
  params group = [p] ->
  grad (parameters w !!! p) = Some g ->
  0 < delta group -> (0 <= num_steps group)%Z ->
  step (L:=L) None w =
  match step_param group (gamma_of group) (future_transport_of group)
          (view w p) with
  | (Ret _, v') => (Ret None, with_groups [advance group] (put_view p v' w))
  | (Raise e, v') => (Raise e, put_view p v' w)
  end.
Proof.
  intros Hgs Hps Hg Hd Hn.
  destruct (step_denominators group Hd Hn) as (D1 & D2 & D3).
  unfold step, for_groups. cbn. rewrite Hgs. cbn. rewrite Hgs. cbn.
  unfold step_group. cbn.
  rewrite (py_div_Ret _ _ w D1), (py_div_Ret _ _ w D2).
  change (inject_Z (num_steps group + 1) /
          (inject_Z (num_steps group + 1) + delta group))
    with (future_gamma_of group).
  rewrite (py_div_Ret _ _ w D3). rewrite Hps. cbn. rewrite Hg.
  unfold with_param.
  change (inject_Z (num_steps group) / (inject_Z (num_steps group) + delta group))
    with (gamma_of group).
  change (future_gamma_of group / (1 - future_gamma_of group))
    with (future_transport_of group).
  destruct (step_param _ _ _ (view w p)) as [[[]|e] v']; [|reflexivity].
  unfold with_groups, advance, update_group. cbn. rewrite Hgs. reflexivity.
Qed.

Ltac shape :=
  repeat first
    [ rewrite length_zeros
    | rewrite length_scale
    | rewrite length_axpy by shape ];
  (lia || congruence).

Ltac run := repeat (cbn; rewrite ?same_shape_true by shape).

Lemma length_effective_gradient group d g :
  length g = length d -> length (effective_gradient group d g) = length d.
Proof.
  intros H. unfold effective_gradient.
  destruct (is_zero (weight_decay group)); shape.
Qed.

Lemma length_first_velocity group d g :
  length g = length d -> length (first_velocity group d g) = length d.
Proof.
  intros H. unfold first_velocity.
  pose proof (length_effective_gradient group d g H). shape.
Qed.

Lemma length_first_momentum group d g :
  length g = length d -> length (first_momentum group d g) = length d.
Proof.
  intros H. unfold first_momentum.
  pose proof (length_first_velocity group d g H). shape.
Qed.

(** The first step of a parameter, without momentum. *)
Lemma first_step_plain group gamma ft d g :
  num_steps group = 0%Z ->
  is_zero (momentum group) = true ->
  length g = length d ->
  let v1 := first_velocity group d g in
  let t1 := axpy d (- lr group) v1 in
  step_param group gamma ft (fresh_view d g) =
  (Ret tt,
   {| param := {| data := axpy t1 (- lr group * ft) v1;
                  grad := Some (effective_gradient group d g) |};
      param_state := {| st_igt_velocity := Some v1;
                        st_true_params := Some t1;
                        st_momentum_velocity := None |} |}).
Proof.
  intros Hn Hm Hl. unfold first_velocity, effective_gradient, fresh_view.
  unfold step_param. rewrite Hn, Hm.
  destruct (is_zero (weight_decay group)); run; reflexivity.
Qed.

(** The first step of a parameter, with heavyball momentum. *)
Lemma first_step_heavyball group gamma ft d g :
  num_steps group = 0%Z ->
  is_zero (momentum group) = false ->
  nesterov group = false ->
  length g = length d ->
  let v1 := first_velocity group d g in
  let m1 := first_momentum group d g in
  let t1 := axpy d (- lr group) m1 in
  step_param group gamma ft (fresh_view d g) =
  (Ret tt,
   {| param := {| data := axpy t1 (- lr group * ft) m1;
                  grad := Some (effective_gradient group d g) |};
      param_state := {| st_igt_velocity := Some v1;
                        st_true_params := Some t1;
                        st_momentum_velocity := Some m1 |} |}).
Proof.
  intros Hn Hm Hnes Hl.
  unfold first_momentum, first_velocity, effective_gradient, fresh_view.
  unfold step_param. rewrite Hn, Hm, Hnes.
  destruct (is_zero (weight_decay group)); run; reflexivity.
Qed.

(** The first step of a parameter, with Nesterov momentum. *)
Lemma first_step_nesterov group gamma ft d g :
  num_steps group = 0%Z ->
  is_zero (momentum group) = false ->
  nesterov group = true ->
  length g = length d ->
  let v1 := first_velocity group d g in
  let m1 := first_momentum group d g in
  let t1 := axpy (axpy d (- lr group) v1) (- lr group * momentum group) m1 in
  step_param group gamma ft (fresh_view d g) =
  (Ret tt,
   {| param :=
        {| data := axpy (axpy t1 (- lr group * ft) v1)
                     (- lr group * momentum group * ft) m1;
           grad := Some (effective_gradient group d g) |};
      param_state := {| st_igt_velocity := Some v1;
                        st_true_params := Some t1;
                        st_momentum_velocity := Some m1 |} |}).
Proof.
  intros Hn Hm Hnes Hl.
  unfold first_momentum, first_velocity, effective_gradient, fresh_view.
  unfold step_param. rewrite Hn, Hm, Hnes.
  destruct (is_zero (weight_decay group)); run; reflexivity.
Qed.

Ltac split_in H :=
  repeat (cbn in H;
          match type of H with
          | context [if ?b then _ else _] => destruct b eqn:?
          | context [match ?o with Some _ => _ | None => _ end] =>
              destruct o eqn:?
          end; try discriminate H);
  cbn in H; try discriminate H.

Ltac split_goal :=
  repeat (cbn;
          match goal with
          | |- context [if ?b then _ else _] => destruct b eqn:?
          | |- context [match ?o with Some _ => _ | None => _ end] =>
              destruct o eqn:?
          end).

(** The gradient buffer and the IGT velocity after a completed
    [step_param], whatever the branch taken. *)
Lemma step_param_Ret_gradient_velocity group gamma ft v v' g :
  grad (param v) = Some g ->
  step_param group gamma ft v = (Ret tt, v') ->
  let eff := effective_gradient group (data (param v)) g in
  grad (param v') = Some eff /\
  exists v0,
    (st_igt_velocity (param_state v) = Some v0 \/
     (st_igt_velocity (param_state v) = None /\ num_steps group = 0%Z /\
      v0 = zeros (length (data (param v))))) /\
    st_igt_velocity (param_state v') =
    Some (if (num_steps group =? 0)%Z then axpy v0 1 eff
          else axpy (scale gamma v0) (1 - gamma) eff).
Proof.
  destruct v as [[d og] [oi ot om]]. cbn. intros -> H.
  unfold step_param in H. unfold effective_gradient.
  destruct (is_zero (weight_decay group)), (is_zero (momentum group)),
    (nesterov group), oi as [vi|], ot as [vt|], om as [vm|];
    destruct (num_steps group =? 0)%Z eqn:En.
  all: split_in H.
  all: injection H as Hv; subst v'; cbn.
  all: try match goal with
           | E : (num_steps _ =? 0)%Z = true |- _ => apply Z.eqb_eq in E
           end.
  all: split; [reflexivity|].
  all: try (eexists; split; [left; reflexivity|reflexivity]).
  all: try (eexists; split;
            [right; repeat split; try assumption; reflexivity|reflexivity]).
Qed.

(** Without weight decay [step_param] never writes the gradient buffer. *)
Lemma step_param_grad_no_weight_decay group gamma ft v :
  is_zero (weight_decay group) = true ->
  grad (param (snd (step_param group gamma ft v))) = grad (param v).
Proof.
  intros Hw. destruct v as [[d g] [oi ot om]].
  unfold step_param. rewrite Hw. split_goal; reflexivity.
Qed.

(** A parameter whose first gradient arrives when [num_steps] is no longer
    0 has no buffers, and [step_param] does not create them. *)
Lemma step_param_late_gradient group gamma ft v g :
  num_steps group <> 0%Z ->
  grad (param v) = Some g ->
  st_igt_velocity (param_state v) = None ->
  length g = length (data (param v)) ->
  fst (step_param group gamma ft v) = Raise (KeyError Kigt_velocity).
Proof.
  destruct v as [[d og] [oi ot om]]. cbn. intros Hn -> -> Hl.
  apply Z.eqb_neq in Hn. unfold step_param. rewrite Hn.
  destruct (is_zero (weight_decay group)); run; reflexivity.
Qed.

(** ** The first step of a freshly built optimizer *)

Lemma fresh_world_valid d g lr momentum dampening weight_decay nesterov delta :
  ~ invalid_config momentum dampening weight_decay nesterov delta ->
  fresh_world d g lr momentum dampening weight_decay nesterov delta =
  {| parameters := one_param d g;
     self := {| state := ∅;
                param_groups :=
                  [new_group [0%nat] lr momentum dampening weight_decay
                     nesterov delta] |} |}.
Proof.
  intros Hv. unfold fresh_world. rewrite (init_checks_pass _ _ _ _ _ _ _ Hv).
  reflexivity.
Qed.

Lemma view_fresh d g gs :
  view {| parameters := one_param d (Some g);
          self := {| state := ∅; param_groups := gs |} |} 0%nat
  = fresh_view d g.
Proof.
  unfold view, fresh_view, one_param. cbn.
  rewrite lookup_total_singleton_eq, lookup_empty. reflexivity.
Qed.

Lemma view_put_view_groups p v gs w :
  view (with_groups gs (put_view p v w)) p = v.
Proof. apply view_put_view_eq. Qed.

Lemma step_fresh_world {L} d g lr momentum dampening weight_decay nesterov
    delta v' :
  ~ invalid_config momentum dampening weight_decay nesterov delta ->
  let group :=
    new_group [0%nat] lr momentum dampening weight_decay nesterov delta in
  step_param group (gamma_of group) (future_transport_of group)
    (fresh_view d g) = (Ret tt, v') ->
  let r := step (L:=L) None
             (fresh_world d (Some g) lr momentum dampening weight_decay
                nesterov delta) in
  fst r = Ret None /\ view (snd r) 0%nat = v' /\
  param_groups (self (snd r)) = [advance group].
Proof.
  intros Hv group Hs r. subst r. rewrite (fresh_world_valid _ _ _ _ _ _ _ _ Hv).
  assert (0 < delta) as Hd.
  { apply Qnot_le_lt. intros Hle. apply Hv. right. left. exact Hle. }
  erewrite (step_one_param _ group 0%nat g); try reflexivity; try exact Hd.
  rewrite view_fresh, Hs. cbn [fst snd].
  split; [reflexivity|]. split; [apply view_put_view_groups|reflexivity].
Qed.

(** Closed comparisons of tensors of rationals. *)
Ltac tensor_compute :=
  vm_compute; repeat split; repeat (constructor; try reflexivity).

(** C1. One parameter of shape (1,), [momentum = 0], [weight_decay = 0],
    [lr = 0.1], [delta = 1]: the first [step] with gradient [g0] on the
    value [p0] returns and leaves [igt_velocity = g0],
    [true_params = p0 - 0.1*g0] and the exposed value
    [p0 - 0.1*g0 - 0.1*future_transport(0)*g0], where
    [future_transport(0) = (1/2)/(1-1/2) = 1]; for [p0 = 1] and [g0 = 2]
    these are 2, 0.8 and 0.6. *)
Theorem C1_first_step_without_momentum :
  let group := new_group [0%nat] 0.1 0 0 0 false 1 in
  let ft := future_transport_of group in
  (ft == (1 # 2) / (1 - (1 # 2)) /\ ft == 1) /\
  (forall p0 g0 : Q,
     let r := step (L:=unit) None
                (fresh_world [p0] (Some [g0]) 0.1 0 0 0 false 1) in
     fst r = Ret None /\
     holds (st_igt_velocity (param_state (view (snd r) 0%nat))) [g0] /\
     holds (st_true_params (param_state (view (snd r) 0%nat)))
       [p0 - 0.1 * g0] /\
     data (param (view (snd r) 0%nat)) =t= [p0 - 0.1 * g0 - 0.1 * ft * g0]) /\
  (let r := step (L:=unit) None
              (fresh_world [1] (Some [2]) 0.1 0 0 0 false 1) in
   fst r = Ret None /\
   holds (st_igt_velocity (param_state (view (snd r) 0%nat))) [2] /\
   holds (st_true_params (param_state (view (snd r) 0%nat))) [0.8] /\
   data (param (view (snd r) 0%nat)) =t= [0.6]).
Proof.
  intros group ft.
  assert (ft == 1) as Hft by (vm_compute; reflexivity).
  split; [split; [vm_compute; reflexivity|exact Hft]|]. split.
  - intros p0 g0.
    assert (~ invalid_config 0 0 0 false 1) as Hv.
    { intros [H|[H|[H _]]]; [lra|lra|discriminate H]. }
    pose proof (first_step_plain group (gamma_of group) ft [p0] [g0]
                  eq_refl eq_refl eq_refl) as Hs.
    destruct (step_fresh_world (L:=unit) [p0] [g0] 0.1 0 0 0 false 1 _ Hv Hs)
      as (Hr & Hview & _).
    cbv zeta. rewrite Hr, Hview. split; [reflexivity|].
    cbv -[Qplus Qmult Qopp Qminus Qeq ft tensor_eq].
    repeat split; repeat constructor; rewrite ?Hft; ring.
  - tensor_compute.
Qed.

(** C2 (the code departs from the claim).  A parameter that has no
    gradient in the first [step] and receives one afterwards: the first
    call returns, leaves [num_steps = 1] and creates no state; the second
    call then raises [KeyError: 'igt_velocity'] instead of creating the
    buffers, and the entry of the parameter stays an empty dictionary. *)
Theorem C2_late_first_gradient_raises :
  let w0 := fresh_world [1] None 0.1 0 0 0 false 1 in
  let r1 := step (L:=unit) None w0 in
  let r2 := step (L:=unit) None (snd (backward 0%nat [2] (snd r1))) in
  fst r1 = Ret None /\
  map num_steps (param_groups (self (snd r1))) = [1%Z] /\
  state (self (snd r1)) !! 0%nat = None /\
  fst r2 = Raise (KeyError Kigt_velocity) /\
  state (self (snd r2)) !! 0%nat = Some empty_dict.
Proof. repeat split; vm_compute; reflexivity. Qed.

(** ** [step] and the gradient buffers *)

Lemma same_grads_refl w : same_grads w w.
Proof. intros p. reflexivity. Qed.

Lemma same_grads_trans w1 w2 w3 :
  same_grads w1 w2 -> same_grads w2 w3 -> same_grads w1 w3.
Proof. intros H12 H23 p. rewrite H23. apply H12. Qed.

Lemma with_param_same_grads {A} q (body : Py PView A) :
  (forall v, grad (param (snd (body v))) = grad (param v)) ->
  preserves same_grads (with_param q body).
Proof.
  intros Hb w p. unfold with_param. specialize (Hb (view w q)).
  destruct (body (view w q)) as [o v']. cbn in *.
  destruct (decide (p = q)) as [->|Hne].
  - rewrite lookup_total_insert_eq. exact Hb.
  - rewrite lookup_total_insert_ne by congruence. reflexivity.
Qed.

Lemma step_group_same_grads i group :
  is_zero (weight_decay group) = true ->
  preserves same_grads (step_group i group).
Proof.
  intros Hw. pose proof same_grads_refl as Hr.
  pose proof same_grads_trans as Ht. unfold step_group.
  repeat (apply preserves_bind; [assumption|apply preserves_py_div; assumption|];
          intros ?).
  apply preserves_bind; [assumption| |].
  - apply preserves_for_each; [assumption..|]. intros p.
    unfold step_loop_body. apply preserves_bind; [assumption| |].
    + apply preserves_gets. assumption.
    + intros [g|]; [|apply preserves_ret; assumption].
      apply with_param_same_grads. intros v.
      apply step_param_grad_no_weight_decay, Hw.
  - intros _ w p. reflexivity.
Qed.

Lemma no_weight_decay_refl w : no_weight_decay w w.
Proof. intros H. split; [apply same_grads_refl|exact H]. Qed.

Lemma no_weight_decay_trans w1 w2 w3 :
  no_weight_decay w1 w2 -> no_weight_decay w2 w3 -> no_weight_decay w1 w3.
Proof.
  intros H12 H23 H1. destruct (H12 H1) as [G12 H2].
  destruct (H23 H2) as [G23 H3].
  split; [eapply same_grads_trans; eassumption|exact H3].
Qed.

Lemma preserves_for_groups_at (R : World -> World -> Prop) body :
  (forall w, R w w) ->
  (forall w1 w2 w3, R w1 w2 -> R w2 w3 -> R w1 w3) ->
  (forall i, preserves R (group_loop_body body i)) ->
  preserves R (for_groups body).
Proof.
  intros Hr Ht Hb. unfold for_groups.
  apply preserves_bind; [assumption|apply preserves_gets; assumption|].
  intros n. apply preserves_for_each; assumption.
Qed.

Lemma step_group_no_weight_decay i :
  preserves no_weight_decay (group_loop_body step_group i).
Proof.
  intros w HF. rewrite group_loop_body_unfold.
  destruct (param_groups (self w) !! i) as [g|] eqn:Eg.
  2:{ apply no_weight_decay_refl, HF. }
  pose proof (Forall_lookup_1 _ _ _ _ HF Eg) as Hw. cbn in Hw.
  pose proof (step_group_groups i g w) as Hgs. cbn in Hgs.
  split; [apply step_group_same_grads, Hw|].
  destruct Hgs as [->| ->]; [exact HF|].
  apply Forall_alter; [exact HF|]. intros g0 _ H0. exact H0.
Qed.

Lemma step_no_weight_decay {L} : preserves no_weight_decay (step (L:=L) None).
Proof.
  pose proof no_weight_decay_refl as Hr.
  pose proof no_weight_decay_trans as Ht. unfold step.
  apply preserves_bind; [assumption|apply preserves_ret; assumption|].
  intros loss. apply preserves_bind; [assumption| |].
  2:{ intros _. apply preserves_ret; assumption. }
  apply preserves_for_groups_at; [assumption..|].
  apply step_group_no_weight_decay.
Qed.

Lemma only_in_group_single p w g :
  param_groups (self w) = [g] -> only_in_group p 0 w.
Proof.
  intros H [|j'] g' Hne; [contradiction|]. rewrite H. discriminate.
Qed.

Lemma registered_fresh_world d g lr momentum dampening weight_decay nesterov
    delta :
  ~ invalid_config momentum dampening weight_decay nesterov delta ->
  registered
    (fresh_world d g lr momentum dampening weight_decay nesterov delta) 0
    (new_group [0%nat] lr momentum dampening weight_decay nesterov delta) 0.
Proof.
  intros Hv. rewrite (fresh_world_valid _ _ _ _ _ _ _ _ Hv).
  split; [reflexivity|]. split; [apply list_elem_of_here|].
  split; [apply NoDup_singleton|]. eapply only_in_group_single. reflexivity.
Qed.

(** C4 (as stated, refuted).  With [weight_decay = 0.5] the call
    overwrites the gradient supplied by the caller: the buffer held 2
    before the call and holds 2.5 after it. *)
Lemma C4_counterexample :
  let w := fresh_world [1] (Some [2]) 0.1 0 0 0.5 false 1 in
  let r := step (L:=unit) None w in
  grad (parameters w !!! 0%nat) = Some [2] /\
  fst r = Ret None /\
  holds (grad (parameters (snd r) !!! 0%nat)) [2.5] /\
  ~ holds (grad (parameters (snd r) !!! 0%nat)) [2].
Proof.
  split; [reflexivity|]. split; [reflexivity|]. split; [tensor_compute|].
  vm_compute. intros H. inversion H as [|? ? ? ? Hq _]. discriminate Hq.
Qed.

(** C4 (amended).  A [step] call in which every group has
    [weight_decay = 0] never writes a gradient buffer: each parameter's
    gradient is after the call what it was before, whatever the outcome.
    With [weight_decay != 0] the call adds [weight_decay * p.data] in
    place into the gradient buffer of every parameter it updates, which
    then holds [g + weight_decay * p.data]. *)
Theorem C4_step_and_gradient_storage {L} (w : World) :
  (Forall (fun g => weight_decay g == 0) (param_groups (self w)) ->
   forall p,
     grad (parameters (snd (step (L:=L) None w)) !!! p)
     = grad (parameters w !!! p)) /\
  (forall w' loss j group p g,
     registered w j group p ->
     ~ weight_decay group == 0 ->
     grad (parameters w !!! p) = Some g ->
     step (L:=L) None w = (Ret loss, w') ->
     grad (parameters w' !!! p)
     = Some (axpy g (weight_decay group) (data (parameters w !!! p)))).
Proof.
  split.
  - intros HF. apply step_no_weight_decay.
    eapply Forall_impl; [exact HF|]. intros g. apply is_zero_true.
  - intros w' loss j group p g (Hj & Hin & Hnd & Ho) Hw Hg Hs.
    pose proof (step_at w w' loss j group p g Hj Hin Hnd Ho Hg Hs) as Hp.
    apply (step_param_Ret_gradient_velocity _ _ _ _ _ g) in Hp; [|exact Hg].
    destruct Hp as [Hgrad _]. unfold effective_gradient in Hgrad.
    apply is_zero_false in Hw. rewrite Hw in Hgrad. exact Hgrad.
Qed.

Lemma C4_step_and_gradient_storage_witness :
  (forall p,
     grad (parameters
             (snd (step (L:=unit) None
                     (fresh_world [1] (Some [2]) 0.1 0 0 0 false 1))) !!! p)
     = grad (parameters (fresh_world [1] (Some [2]) 0.1 0 0 0 false 1) !!! p))
  /\
  grad (parameters
          (snd (step (L:=unit) None
                  (fresh_world [1] (Some [2]) 0.1 0 0 0.5 false 1))) !!! 0%nat)
  = Some (axpy [2] 0.5 [1]).
Proof.
  split.
  - apply (C4_step_and_gradient_storage (L:=unit)
             (fresh_world [1] (Some [2]) 0.1 0 0 0 false 1)).
    repeat constructor.
  - apply (proj2 (C4_step_and_gradient_storage (L:=unit)
                    (fresh_world [1] (Some [2]) 0.1 0 0 0.5 false 1))
             _ None 0%nat (new_group [0%nat] 0.1 0 0 0.5 false 1) 0%nat [2]).
    + apply registered_fresh_world.
      intros [H|[H|[H _]]]; [lra|lra|discriminate H].
    + intros H. discriminate H.
    + reflexivity.
    + reflexivity.
Defined.

(** C3 (as stated, refuted).  The second [step] of a parameter, with
    [weight_decay = 0.5]: before the call [true_params] is 0.75 and the
    exposed value is 0.5; the new velocity is built from
    [g + weight_decay * 0.5], the exposed value, and not from
    [g + weight_decay * 0.75]. *)
Lemma C3_counterexample :
  let w := after_one_step in
  let r := step (L:=unit) None w in
  map weight_decay (param_groups (self w)) = [0.5] /\
  map gamma_of (param_groups (self w)) = [(1 # 1) / ((1 # 1) + 1)] /\
  grad (parameters w !!! 0%nat) = Some [1] /\
  holds (st_true_params (param_state (view w 0%nat))) [0.75] /\
  data (parameters w !!! 0%nat) =t= [0.5] /\
  holds (st_igt_velocity (param_state (view w 0%nat))) [2.5] /\
  fst r = Ret None /\
  holds (st_igt_velocity (param_state (view (snd r) 0%nat)))
    (axpy (scale (1 # 2) [2.5]) (1 - (1 # 2)) (axpy [1] 0.5 [0.5])) /\
  ~ holds (st_igt_velocity (param_state (view (snd r) 0%nat)))
      (axpy (scale (1 # 2) [2.5]) (1 - (1 # 2)) (axpy [1] 0.5 [0.75])).
Proof.
  repeat (split; [tensor_compute|]).
  vm_compute. intros H. inversion H as [|? ? ? ? Hq _]. discriminate Hq.
Qed.

(** C3 (amended).  In every completed [step] call with
    [weight_decay != 0], the effective gradient used for the velocity
    update of a parameter is the supplied gradient [g] plus [weight_decay]
    times the exposed value [p.data] of that parameter as the call finds
    it: with [eff = g + weight_decay * p.data], the new [igt_velocity] is
    [v0 + eff] when [num_steps == 0] ([v0] the stored velocity, or zeros
    when there is none) and [gamma * v0 + (1 - gamma) * eff] otherwise. *)
Theorem C3_weight_decay_uses_exposed_value
    {L} (w w' : World) (loss : option L) j group p g :
  registered w j group p ->
  ~ weight_decay group == 0 ->
  grad (parameters w !!! p) = Some g ->
  step None w = (Ret loss, w') ->
  let eff := axpy g (weight_decay group) (data (parameters w !!! p)) in
  exists v0,
    (st_igt_velocity (param_state (view w p)) = Some v0 \/
     (st_igt_velocity (param_state (view w p)) = None /\
      num_steps group = 0%Z /\
      v0 = zeros (length (data (parameters w !!! p))))) /\
    st_igt_velocity (param_state (view w' p)) =
    Some (if (num_steps group =? 0)%Z then axpy v0 1 eff
          else axpy (scale (gamma_of group) v0) (1 - gamma_of group) eff).
Proof.
  intros (Hj & Hin & Hnd & Ho) Hw Hg Hs.
  pose proof (step_at w w' loss j group p g Hj Hin Hnd Ho Hg Hs) as Hp.
  apply (step_param_Ret_gradient_velocity _ _ _ _ _ g) in Hp; [|exact Hg].
  destruct Hp as [_ Hv]. unfold effective_gradient in Hv.
  apply is_zero_false in Hw. rewrite Hw in Hv. exact Hv.
Qed.

Lemma registered_after_one_step :
  registered after_one_step 0
    (advance (new_group [0%nat] 0.1 0 0 0.5 false 1)) 0.
Proof.
  split; [reflexivity|]. split; [apply list_elem_of_here|].
  split; [apply NoDup_singleton|]. eapply only_in_group_single. reflexivity.
Qed.

Lemma C3_weight_decay_uses_exposed_value_witness :
  let w := after_one_step in
  let group := advance (new_group [0%nat] 0.1 0 0 0.5 false 1) in
  let eff := axpy [1] 0.5 (data (parameters w !!! 0%nat)) in
  exists v0,
    (st_igt_velocity (param_state (view w 0%nat)) = Some v0 \/
     (st_igt_velocity (param_state (view w 0%nat)) = None /\
      num_steps group = 0%Z /\
      v0 = zeros (length (data (parameters w !!! 0%nat))))) /\
    st_igt_velocity
      (param_state (view (snd (step (L:=unit) None w)) 0%nat)) =
    Some (if (num_steps group =? 0)%Z then axpy v0 1 eff
          else axpy (scale (gamma_of group) v0) (1 - gamma_of group) eff).
Proof.
  apply (C3_weight_decay_uses_exposed_value (L:=unit) after_one_step
           (snd (step (L:=unit) None after_one_step)) None 0%nat
           (advance (new_group [0%nat] 0.1 0 0 0.5 false 1)) 0%nat [1]).
  - exact registered_after_one_step.
  - intros H. discriminate H.
  - reflexivity.
  - vm_compute. reflexivity.
Defined.

(** ** Heavyball against Nesterov *)

Lemma axpy_cons x a alpha y b :
  axpy (x :: a) alpha (y :: b) = (x + alpha * y) :: axpy a alpha b.
Proof. reflexivity. Qed.

Lemma zeros_S n : zeros (S n) = 0 :: zeros n.
Proof. reflexivity. Qed.

(** Heavyball's [true_params] is Nesterov's plus [lr * momentum] times
    the effective gradient. *)
Lemma heavyball_minus_nesterov d :
  forall v mv e lr m,
  v =t= e -> mv =t= e -> length e = length d ->
  axpy d (- lr) mv =t=
  axpy (axpy (axpy d (- lr) v) (- lr * m) mv) (lr * m) e.
Proof.
  induction d as [|x d IH]; intros v mv e lr m Hv Hmv Hl.
  - destruct e; [|discriminate]. inversion Hv; inversion Hmv; subst.
    constructor.
  - destruct Hv as [|a c v e Ha Hv]; [discriminate|].
    inversion Hmv as [|b c' mv' e' Hb Hmv']; subst.
    rewrite !axpy_cons. constructor.
    + rewrite Ha, Hb. ring.
    + apply IH; auto.
Qed.

Lemma first_velocity_eq group d g :
  length g = length d ->
  first_velocity group d g =t= effective_gradient group d g.
Proof.
  intros H. unfold first_velocity. apply axpy_zeros_1.
  symmetry. apply length_effective_gradient, H.
Qed.

Lemma first_momentum_eq group d g :
  length g = length d ->
  first_momentum group d g =t= effective_gradient group d g.
Proof.
  intros H. unfold first_momentum.
  eapply tensor_eq_trans; [|apply first_velocity_eq, H].
  apply axpy_zeros_1. symmetry. apply length_first_velocity, H.
Qed.

(** C9 (as stated, refuted).  With [weight_decay = 1] the nonzero gradient
    [-1] on the value 1 is cancelled by the decay term: after the first
    step both runs have [true_params = 1]. *)
Lemma C9_counterexample :
  let r_h := step (L:=unit) None
               (fresh_world [1] (Some [-1]) 0.1 0.9 0 1 false 1) in
  let r_n := step (L:=unit) None
               (fresh_world [1] (Some [-1]) 0.1 0.9 0 1 true 1) in
  0 < 0.9 /\ ~ [-1] =t= [0] /\
  fst r_h = Ret None /\ fst r_n = Ret None /\
  holds (st_true_params (param_state (view (snd r_h) 0%nat))) [1] /\
  holds (st_true_params (param_state (view (snd r_n) 0%nat))) [1].
Proof.
  split; [reflexivity|]. split.
  { intros H. inversion H as [|? ? ? ? Hq _]. discriminate Hq. }
  tensor_compute.
Qed.

(** C9 (amended).  For [momentum > 0] and two freshly built optimizers
    that differ in [nesterov] only ([dampening = 0]), fed the same
    gradient on the same initial value, whose first steps both return:
    both have the same [igt_velocity] and the same [momentum_velocity],
    both equal to the effective gradient [e] ([g], or
    [g + weight_decay * p.data] under weight decay); heavyball subtracts
    [lr * momentum_velocity] only, Nesterov subtracts [lr * igt_velocity]
    and in addition [lr * momentum * momentum_velocity]; so heavyball's
    [true_params] is Nesterov's plus [lr * momentum * e]. *)
Theorem C9_nesterov_and_heavyball_differ_by_a_momentum_term
    (d g : Tensor) (lr momentum weight_decay delta : Q) (w_h w_n : World) :
  0 < momentum -> 0 <= weight_decay -> 0 < delta ->
  length g = length d ->
  step (L:=unit) None
    (fresh_world d (Some g) lr momentum 0 weight_decay false delta)
  = (Ret None, w_h) ->
  step (L:=unit) None
    (fresh_world d (Some g) lr momentum 0 weight_decay true delta)
  = (Ret None, w_n) ->
  let e :=
    effective_gradient
      (new_group [0%nat] lr momentum 0 weight_decay false delta) d g in
  exists v mv t_h t_n,
    param_state (view w_h 0%nat) =
      {| st_igt_velocity := Some v; st_true_params := Some t_h;
         st_momentum_velocity := Some mv |} /\
    param_state (view w_n 0%nat) =
      {| st_igt_velocity := Some v; st_true_params := Some t_n;
         st_momentum_velocity := Some mv |} /\
    v =t= e /\ mv =t= e /\
    t_h = axpy d (- lr) mv /\
    t_n = axpy (axpy d (- lr) v) (- lr * momentum) mv /\
    t_h =t= axpy t_n (lr * momentum) e.
Proof.
  intros Hm Hwd Hd Hl Sh Sn e.
  assert (forall n, ~ invalid_config momentum 0 weight_decay n delta) as Hv.
  { intros n [H|[H|[_ [H|H]]]]; [lra|lra|lra|apply H; reflexivity]. }
  assert (is_zero momentum = false) as Hmz by (apply is_zero_false; lra).
  set (hb := new_group [0%nat] lr momentum 0 weight_decay false delta) in *.
  set (ne := new_group [0%nat] lr momentum 0 weight_decay true delta).
  pose proof (first_step_heavyball hb (gamma_of hb) (future_transport_of hb)
                d g eq_refl Hmz eq_refl Hl) as Hh.
  pose proof (first_step_nesterov ne (gamma_of ne) (future_transport_of ne)
                d g eq_refl Hmz eq_refl Hl) as Hn.
  destruct (step_fresh_world (L:=unit) d g lr momentum 0 weight_decay false
              delta _ (Hv false) Hh) as (Rh & Vh & _).
  destruct (step_fresh_world (L:=unit) d g lr momentum 0 weight_decay true
              delta _ (Hv true) Hn) as (Rn & Vn & _).
  rewrite Sh in Rh, Vh. rewrite Sn in Rn, Vn. cbn [snd] in Vh, Vn.
  rewrite Vh, Vn. cbn [param_state].
  exists (first_velocity hb d g), (first_momentum hb d g).
  do 2 eexists. split; [reflexivity|]. split; [reflexivity|].
  pose proof (first_velocity_eq hb d g Hl) as Ev.
  pose proof (first_momentum_eq hb d g Hl) as Em.
  split; [exact Ev|]. split; [exact Em|].
  split; [reflexivity|]. split; [reflexivity|].
  apply (heavyball_minus_nesterov d _ _ e lr momentum Ev Em).
  apply length_effective_gradient, Hl.
Qed.

Lemma C9_nesterov_and_heavyball_differ_by_a_momentum_term_witness :
  exists v mv t_h t_n,
    param_state
      (view (snd (step (L:=unit) None
                    (fresh_world [1] (Some [2]) 0.1 0.9 0 0 false 1))) 0%nat) =
      {| st_igt_velocity := Some v; st_true_params := Some t_h;
         st_momentum_velocity := Some mv |} /\
    param_state
      (view (snd (step (L:=unit) None
                    (fresh_world [1] (Some [2]) 0.1 0.9 0 0 true 1))) 0%nat) =
      {| st_igt_velocity := Some v; st_true_params := Some t_n;
         st_momentum_velocity := Some mv |} /\
    v =t= [2] /\ mv =t= [2] /\
    t_h = axpy [1] (- 0.1) mv /\
    t_n = axpy (axpy [1] (- 0.1) v) (- 0.1 * 0.9) mv /\
    t_h =t= axpy t_n (0.1 * 0.9) [2].
Proof.
  apply (C9_nesterov_and_heavyball_differ_by_a_momentum_term
           [1] [2] 0.1 0.9 0 1
           (snd (step (L:=unit) None
                   (fresh_world [1] (Some [2]) 0.1 0.9 0 0 false 1)))
           (snd (step (L:=unit) None
                   (fresh_world [1] (Some [2]) 0.1 0.9 0 0 true 1))));
    try reflexivity; try discriminate.
Defined.

(** * Further properties of [step], [train] and [eval] *)

(** ** What [step] does to the group dictionaries *)

Lemma for_each_cons {S A} (x : A) (l : list A) (body : A -> Py S unit) s :
  for_each (x :: l) body s =
  match body x s with
  | (Ret _, s') => for_each l body s'
  | (Raise e, s') => (Raise e, s')
  end.
Proof. reflexivity. Qed.

Lemma step_group_outcome_groups i group w :
  let r := step_group i group w in
  param_groups (self (snd r)) =
  match fst r with
  | Ret _ => alter (set_num_steps (num_steps group + 1)) i
               (param_groups (self w))
  | Raise _ => param_groups (self w)
  end.
Proof.
  unfold step_group, bind.
  destruct (py_div _ _ w) as [[gamma|e] w1] eqn:E1;
    apply py_div_inv in E1 as ->; [|reflexivity].
  destruct (py_div _ _ w) as [[fg|e] w1] eqn:E2;
    apply py_div_inv in E2 as ->; [|reflexivity].
  destruct (py_div _ _ w) as [[ft|e] w1] eqn:E3;
    apply py_div_inv in E3 as ->; [|reflexivity].
  pose proof (step_loop_same_groups (params group) group gamma ft w) as E4.
  unfold same_groups in E4.
  destruct (for_each _ _ w) as [[[]|e] w4]; cbn in *; rewrite E4; reflexivity.
Qed.

Lemma lookup_advanced_prefix (gs : list Group) i :
  (map advance (take i gs) ++ drop i gs) !! i = gs !! i.
Proof.
  destruct (decide (i < length gs)%nat) as [Hlt|Hge].
  - rewrite lookup_app_r; rewrite length_map, length_take; [|lia].
    replace (i - i `min` length gs)%nat with 0%nat by lia.
    rewrite lookup_drop. f_equal. lia.
  - rewrite take_ge, drop_ge, app_nil_r by lia.
    rewrite !(proj2 (lookup_ge_None _ _)); [reflexivity|lia|].
    rewrite length_map. lia.
Qed.

Lemma alter_advanced_prefix (gs : list Group) i g :
  gs !! i = Some g ->
  alter (set_num_steps (num_steps g + 1)) i
    (map advance (take i gs) ++ drop i gs)
  = map advance (take (S i) gs) ++ drop (S i) gs.
Proof.
  intros Hg. pose proof (lookup_lt_Some _ _ _ Hg) as Hlt.
  rewrite alter_app_r_alt; rewrite length_map, length_take; [|lia].
  replace (i - i `min` length gs)%nat with 0%nat by lia.
  rewrite (drop_S _ _ _ Hg), (take_S_r _ _ _ Hg). cbn.
  rewrite map_app, <- app_assoc. reflexivity.
Qed.

Lemma advanced_prefix_all (gs : list Group) :
  map advance (take (length gs) gs) ++ drop (length gs) gs = map advance gs.
Proof. rewrite take_ge, drop_ge, app_nil_r by lia. reflexivity. Qed.

Lemma step_groups_outcome gs k :
  forall i w,
  (i + k)%nat = length gs ->
  param_groups (self w) = map advance (take i gs) ++ drop i gs ->
  let r := for_each (seq i k) (group_loop_body step_group) w in
  match fst r with
  | Ret _ => param_groups (self (snd r)) = map advance gs
  | Raise e =>
      exists m g wa,
        gs !! m = Some g /\
        param_groups (self wa) = map advance (take m gs) ++ drop m gs /\
        step_group m g wa = (Raise e, snd r) /\
        param_groups (self (snd r)) = param_groups (self wa)
  end.
Proof.
  induction k as [|k IH]; intros i w Hlen Hw.
  - cbn. rewrite Hw. replace i with (length gs) by lia.
    apply advanced_prefix_all.
  - cbn [seq]. cbv zeta. rewrite for_each_cons, group_loop_body_unfold.
    rewrite Hw, lookup_advanced_prefix.
    destruct (gs !! i) as [g|] eqn:Eg.
    2:{ apply lookup_ge_None in Eg. lia. }
    pose proof (step_group_outcome_groups i g w) as Hg. cbn in Hg.
    destruct (step_group i g w) as [[[]|e] w1] eqn:Es; cbn in Hg.
    + apply IH; [lia|]. rewrite Hg, Hw. apply alter_advanced_prefix, Eg.
    + cbn. exists i, g, w.
      split; [exact Eg|]. split; [exact Hw|]. split; [exact Es|exact Hg].
Qed.

(** What a [step] call does to the group dictionaries follows from its
    outcome.  When it returns, every group has its [num_steps] increased
    by one.  When it raises, the exception is the one raised by the loop
    body of some group [m]: the groups before [m] have their [num_steps]
    increased by one, group [m] and the groups after it are as they were.
    Either way [step] never touches a hyperparameter or the [transported]
    flag, and no counter decreases. *)
Theorem step_advances_a_prefix_of_the_groups {L} (w : World) :
  let r := step (L:=L) None w in
  let gs := param_groups (self w) in
  let gs' := param_groups (self (snd r)) in
  match fst r with
  | Ret _ => gs' = map advance gs
  | Raise e =>
      exists m g wa,
        gs !! m = Some g /\
        param_groups (self wa) = map advance (take m gs) ++ drop m gs /\
        step_group m g wa = (Raise e, snd r) /\
        gs' = map advance (take m gs) ++ drop m gs
  end /\
  map settings gs' = map settings gs /\
  Forall2 (fun g g' => (num_steps g <= num_steps g' <= num_steps g + 1)%Z)
    gs gs'.
Proof.
  intros r gs gs'.
  pose proof (step_groups_outcome gs (length gs) 0 w eq_refl) as Ho.
  cbv zeta in Ho. specialize (Ho ltac:(cbn; rewrite drop_0; reflexivity)).
  assert (fst r = match fst (for_each (seq 0 (length gs))
                               (group_loop_body step_group) w) with
                  | Ret _ => Ret None | Raise e => Raise e end /\
          snd r = snd (for_each (seq 0 (length gs))
                         (group_loop_body step_group) w)) as [Ef Es].
  { subst r gs. unfold step, for_groups. cbn.
    destruct (for_each _ (group_loop_body step_group) w) as [[[]|e] w1];
      split; reflexivity. }
  assert (match fst r with
          | Ret _ => gs' = map advance gs
          | Raise e =>
              exists m g wa,
                gs !! m = Some g /\
                param_groups (self wa)
                = map advance (take m gs) ++ drop m gs /\
                step_group m g wa = (Raise e, snd r) /\
                gs' = map advance (take m gs) ++ drop m gs
          end) as H1.
  { subst gs'. rewrite Ef, Es.
    destruct (fst (for_each (seq 0 (length gs))
                     (group_loop_body step_group) w)) as [[]|e].
    - exact Ho.
    - destruct Ho as (m & g & wa & Hg & Hwa & Hs & He).
      exists m, g, wa. split; [exact Hg|]. split; [exact Hwa|].
      split; [exact Hs|]. rewrite He. exact Hwa. }
  split; [exact H1|].
  assert (exists m, gs' = map advance (take m gs) ++ drop m gs) as [m Hm].
  { destruct (fst r) as [l|e].
    - exists (length gs). rewrite advanced_prefix_all. exact H1.
    - destruct H1 as (m & _ & _ & _ & _ & _ & H1). exists m. exact H1. }
  rewrite Hm. clear. split.
  - rewrite <- (take_drop m gs) at 3. rewrite !map_app, map_map. reflexivity.
  - rewrite <- (take_drop m gs) at 1. apply Forall2_app.
    + apply Forall2_fmap_r, Forall_Forall2_diag, Forall_true.
      intros g. cbn. lia.
    + apply Forall_Forall2_diag, Forall_true. intros g. lia.
Qed.

(** ** The loop bodies of [train] and [eval] *)

Ltac lengths :=
  repeat match goal with
         | H : same_shape _ _ = true |- _ => apply same_shape_length in H
         end;
  cbn in *;
  repeat match goal with
         | H : context [length (axpy _ _ _)] |- _ =>
             rewrite length_axpy in H by shape
         | H : context [length (scale _ _)] |- _ => rewrite length_scale in H
         | H : context [length (zeros _)] |- _ => rewrite length_zeros in H
         end;
  try shape.

Lemma eval_param_keeps_buffers : keeps_buffers eval_param.
Proof.
  intros [[d g] [oi ot om]]. unfold eval_param.
  split_goal; repeat split; lengths.
Qed.

Lemma train_param_keeps_buffers group transport :
  keeps_buffers (train_param group transport).
Proof.
  intros [[d g] [oi ot om]]. unfold train_param.
  split_goal; repeat split; lengths.
Qed.

(** [eval] on one parameter: the exposed value becomes [true_params]. *)
Lemma eval_param_Ret v v' :
  eval_param v = (Ret tt, v') ->
  st_true_params (param_state v) = Some (data (param v')).
Proof.
  destruct v as [[d g] [oi ot om]]. unfold eval_param. intros H.
  split_in H. injection H as Hv; subst v'. reflexivity.
Qed.

(** [train] on one parameter: the exposed value becomes the projection of
    the stored buffers. *)
Lemma train_param_Ret group transport v v' :
  train_param group transport v = (Ret tt, v') ->
  exists t igt mv,
    st_true_params (param_state v) = Some t /\
    st_igt_velocity (param_state v) = Some igt /\
    (is_zero (momentum group) = false ->
     st_momentum_velocity (param_state v) = Some mv) /\
    data (param v') = projection group transport t igt mv.
Proof.
  destruct v as [[d g] [oi ot om]]. unfold train_param, projection.
  intros H.
  destruct (is_zero (momentum group)), (nesterov group),
    oi as [vi|], ot as [vt|], om as [vm|].
  all: split_in H.
  all: injection H as Hv; subst v'; cbn.
  all: try (exists vt, vi, vm; repeat split; congruence).
  all: try (exists vt, vi, []; repeat split; congruence).
Qed.

(** [step] on one parameter: what is stored and what is exposed. *)
Lemma step_param_Ret_exposed group gamma ft v v' :
  step_param group gamma ft v = (Ret tt, v') ->
  exists t0 t' igt' mv',
    (st_true_params (param_state v) = Some t0 \/
     (st_true_params (param_state v) = None /\ num_steps group = 0%Z /\
      t0 = data (param v))) /\
    st_true_params (param_state v') = Some t' /\
    st_igt_velocity (param_state v') = Some igt' /\
    (is_zero (momentum group) = false ->
     st_momentum_velocity (param_state v') = Some mv') /\
    t' = advanced group t0 igt' mv' /\
    data (param v') = projection group ft t' igt' mv'.
Proof.
  destruct v as [[d og] [oi ot om]]. unfold step_param, advanced, projection.
  intros H.
  destruct og as [g|].
  2:{ destruct (is_zero (weight_decay group)), (is_zero (momentum group)),
        (nesterov group), oi, ot, om;
        destruct (num_steps group =? 0)%Z; split_in H. }
  destruct (is_zero (weight_decay group)), (is_zero (momentum group)),
    (nesterov group), oi as [vi|], ot as [vt|], om as [vm|];
    destruct (num_steps group =? 0)%Z eqn:En.
  all: split_in H.
  all: injection H as Hv; subst v'; cbn.
  all: try match goal with
           | E : (num_steps _ =? 0)%Z = true |- _ => apply Z.eqb_eq in E
           end.
  all: try (do 3 eexists; eexists [];
            split; [left; reflexivity|]; repeat split; congruence).
  all: try (do 3 eexists; eexists [];
            split; [right; repeat split; try assumption; reflexivity|];
            repeat split; congruence).
  all: try (do 4 eexists;
            split; [left; reflexivity|]; repeat split; congruence).
  all: try (do 4 eexists;
            split; [right; repeat split; try assumption; reflexivity|];
            repeat split; congruence).
Qed.

(** ** Loops over the groups, in general *)

Lemma alter_fixed {A} (F : A -> A) i (l : list A) x :
  l !! i = Some x -> F x = x -> alter F i l = l.
Proof.
  intros Hx HF. rewrite <- (list_alter_id id l i) at 2 by reflexivity.
  apply list_alter_ext; [|reflexivity].
  intros y Hy. rewrite Hx in Hy. injection Hy as <-. exact HF.
Qed.

Lemma alter_same_at {A} (F G : A -> A) i (l : list A) x :
  l !! i = Some x -> F x = G x -> alter F i l = alter G i l.
Proof.
  intros Hx HF. apply list_alter_ext; [|reflexivity].
  intros y Hy. rewrite Hx in Hy. injection Hy as <-. exact HF.
Qed.

Section GroupLoop.
Variable gb : nat -> Group -> Py World unit.
Variable F : Group -> Group.
Hypothesis gb_Ret :
  forall i g wa wb,
    param_groups (self wa) !! i = Some g ->
    gb i g wa = (Ret tt, wb) ->
    param_groups (self wb) = alter F i (param_groups (self wa)).

Lemma group_loop_Ret_from k :
  forall i w w',
  (i + k)%nat = length (param_groups (self w)) ->
  for_each (seq i k) (group_loop_body gb) w = (Ret tt, w') ->
  param_groups (self w') =
  take i (param_groups (self w)) ++ map F (drop i (param_groups (self w))).
Proof.
  induction k as [|k IH]; intros i w w' Hlen H.
  - injection H as <-. rewrite Nat.add_0_r in Hlen.
    rewrite Hlen, firstn_all, drop_all. cbn. rewrite app_nil_r. reflexivity.
  - cbn [seq] in H. rewrite for_each_cons, group_loop_body_unfold in H.
    destruct (param_groups (self w) !! i) as [g|] eqn:Eg.
    2:{ apply lookup_ge_None in Eg. lia. }
    destruct (gb i g w) as [[[]|e] w1] eqn:E1; [|discriminate].
    pose proof (gb_Ret _ _ _ _ Eg E1) as H1.
    apply IH in H.
    2:{ rewrite H1, length_alter. lia. }
    rewrite H, H1.
    rewrite take_alter_lt by lia. rewrite drop_alter_lt by lia.
    rewrite (take_S_r _ _ _ Eg). rewrite (drop_S _ _ _ Eg).
    rewrite alter_app_r_alt by (rewrite length_take; lia).
    rewrite length_take.
    replace (i - i `min` length (param_groups (self w)))%nat with 0%nat by lia.
    cbn. rewrite <- app_assoc. reflexivity.
Qed.

Lemma group_loop_Ret_groups w w' :
  for_groups gb w = (Ret tt, w') ->
  param_groups (self w') = map F (param_groups (self w)).
Proof.
  unfold for_groups. intros H.
  apply bind_Ret_inv in H as (n & w0 & H0 & H). injection H0 as <- <-.
  apply group_loop_Ret_from in H; [|reflexivity]. exact H.
Qed.

Lemma group_loop_Ret_each_from k :
  forall i0 w w',
  (i0 + k)%nat = length (param_groups (self w)) ->
  for_each (seq i0 k) (group_loop_body gb) w = (Ret tt, w') ->
  forall i g, (i0 <= i)%nat -> param_groups (self w) !! i = Some g ->
  exists wa wb, gb i g wa = (Ret tt, wb).
Proof.
  induction k as [|k IH]; intros i0 w w' Hlen H i g Hi Hg.
  - apply lookup_lt_Some in Hg. lia.
  - cbn [seq] in H. rewrite for_each_cons, group_loop_body_unfold in H.
    destruct (param_groups (self w) !! i0) as [g0|] eqn:Eg.
    2:{ apply lookup_ge_None in Eg. lia. }
    destruct (gb i0 g0 w) as [[[]|e] w1] eqn:E1; [|discriminate].
    destruct (decide (i = i0)) as [->|Hne].
    + rewrite Eg in Hg. injection Hg as <-. eauto.
    + pose proof (gb_Ret _ _ _ _ Eg E1) as H1.
      apply (IH (S i0) w1 w'); [rewrite H1, length_alter; lia|exact H|lia|].
      rewrite H1, list_lookup_alter_ne by congruence. exact Hg.
Qed.

Lemma group_loop_Ret_each w w' i g :
  for_groups gb w = (Ret tt, w') ->
  param_groups (self w) !! i = Some g ->
  exists wa wb, gb i g wa = (Ret tt, wb).
Proof.
  unfold for_groups. intros H Hg.
  apply bind_Ret_inv in H as (n & w0 & H0 & H). injection H0 as <- <-.
  eapply (group_loop_Ret_each_from _ 0%nat); [reflexivity|exact H|lia|exact Hg].
Qed.
End GroupLoop.

(** Loops over [group['params']] whose body runs on the buffers of one
    parameter keep the group dictionaries. *)
Lemma with_param_loop_same_groups (l : list nat) (body : Py PView unit) :
  preserves same_groups (for_each l (fun p => with_param p body)).
Proof.
  apply preserves_for_each; [reflexivity|apply same_groups_trans|].
  intros p. apply with_param_same_groups.
Qed.

Lemma with_param_loop_groups l (body : Py PView unit) w o w' :
  for_each l (fun p => with_param p body) w = (o, w') ->
  param_groups (self w') = param_groups (self w).
Proof.
  intros H. pose proof (with_param_loop_same_groups l body w) as E.
  rewrite H in E. exact E.
Qed.

(** ** The flags after [eval] and [train] *)

Lemma eval_group_Ret_groups i g wa wb :
  param_groups (self wa) !! i = Some g ->
  eval_group i g wa = (Ret tt, wb) ->
  param_groups (self wb) = alter eval_flag i (param_groups (self wa)).
Proof.
  intros Hg H. unfold eval_group in H.
  destruct (transported g) eqn:Et; cbn [when] in H.
  - apply bind_Ret_inv in H as ([] & w1 & H1 & H).
    apply with_param_loop_groups in H1. injection H as <-. cbn.
    rewrite H1. apply (alter_same_at _ _ _ _ g Hg).
    unfold eval_flag. rewrite Et. reflexivity.
  - injection H as <-. symmetry. apply (alter_fixed _ _ _ g Hg).
    unfold eval_flag. rewrite Et. reflexivity.
Qed.

Lemma train_group_Ret_groups i g wa wb :
  param_groups (self wa) !! i = Some g ->
  train_group i g wa = (Ret tt, wb) ->
  param_groups (self wb) = alter train_flag i (param_groups (self wa)).
Proof.
  intros Hg H. unfold train_group in H.
  apply bind_Ret_inv in H as (gamma & w1 & H1 & H).
  apply bind_Ret_inv in H as (tr & w2 & H2 & H).
  apply py_div_inv in H1 as ->. apply py_div_inv in H2 as ->.
  destruct (negb (transported g) && (0 <? num_steps g)%Z) eqn:Ec;
    cbn [when] in H.
  - apply bind_Ret_inv in H as ([] & w1 & H1 & H).
    apply with_param_loop_groups in H1. injection H as <-. cbn.
    rewrite H1. apply (alter_same_at _ _ _ _ g Hg).
    unfold train_flag. rewrite Ec. reflexivity.
  - injection H as <-. symmetry. apply (alter_fixed _ _ _ g Hg).
    unfold train_flag. rewrite Ec. reflexivity.
Qed.

Lemma eval_Ret_groups w w' :
  eval w = (Ret tt, w') ->
  param_groups (self w') = map eval_flag (param_groups (self w)).
Proof. apply group_loop_Ret_groups, eval_group_Ret_groups. Qed.

Lemma train_Ret_groups w w' :
  train w = (Ret tt, w') ->
  param_groups (self w') = map train_flag (param_groups (self w)).
Proof. apply group_loop_Ret_groups, train_group_Ret_groups. Qed.

(** ** [eval] and [train] write exposed values and flags only *)

Lemma preserves_impl {S A} (R R' : S -> S -> Prop) (m : Py S A) :
  (forall s s', R s s' -> R' s s') -> preserves R m -> preserves R' m.
Proof. intros H Hm s. apply H, Hm. Qed.

Lemma buffers_kept_refl w : buffers_kept w w.
Proof. intros p. repeat split. Qed.

Lemma buffers_kept_trans w1 w2 w3 :
  buffers_kept w1 w2 -> buffers_kept w2 w3 -> buffers_kept w1 w3.
Proof.
  intros H12 H23 p. destruct (H12 p) as (A1 & B1 & C1).
  destruct (H23 p) as (A2 & B2 & C2). repeat split; congruence.
Qed.

Lemma with_param_buffers_kept {A} q (body : Py PView A) :
  keeps_buffers body -> preserves buffers_kept (with_param q body).
Proof.
  intros Hb w p. unfold with_param. specialize (Hb (view w q)).
  destruct (body (view w q)) as [o v']. cbn [snd] in *.
  destruct (decide (p = q)) as [->|Hne].
  - rewrite view_put_view_eq. unfold put_view. cbn [parameters].
    rewrite lookup_total_insert_eq. exact Hb.
  - pose proof (put_view_untouched p q v' w Hne) as Hu.
    rewrite (untouched_view _ _ _ Hu). destruct Hu as [-> _].
    repeat split.
Qed.

Lemma flags_only_refl w : flags_only w w.
Proof. reflexivity. Qed.

Lemma flags_only_trans w1 w2 w3 :
  flags_only w1 w2 -> flags_only w2 w3 -> flags_only w1 w3.
Proof. unfold flags_only. congruence. Qed.

Lemma same_groups_flags_only w w' : same_groups w w' -> flags_only w w'.
Proof. unfold same_groups, flags_only. intros ->. reflexivity. Qed.

Lemma map_unflagged_alter b i (gs : list Group) :
  map unflagged (alter (set_transported b) i gs) = map unflagged gs.
Proof.
  revert i. induction gs as [|g gs IH]; intros [|i]; cbn; f_equal; auto.
Qed.

Lemma update_flag_flags_only i b :
  preserves flags_only (update_group i (set_transported b)).
Proof. intros w. unfold flags_only. cbn. apply map_unflagged_alter. Qed.

Lemma update_group_buffers_kept i f : preserves buffers_kept (update_group i f).
Proof. intros w p. repeat split. Qed.

Lemma mode_loop_frame l (body : Py PView unit) i b :
  keeps_buffers body ->
  preserves mode_frame
    (for_each l (fun p => with_param p body) ;;
     update_group i (set_transported b)).
Proof.
  intros Hb w. split.
  - revert w. apply preserves_bind; [apply buffers_kept_trans| |].
    + apply preserves_for_each;
        [apply buffers_kept_refl|apply buffers_kept_trans|].
      intros p. apply with_param_buffers_kept, Hb.
    + intros _. apply update_group_buffers_kept.
  - revert w.
    change (preserves flags_only
              (for_each l (fun p => with_param p body) ;;
               update_group i (set_transported b))).
    apply preserves_bind; [apply flags_only_trans| |].
    + eapply preserves_impl; [apply same_groups_flags_only|].
      apply with_param_loop_same_groups.
    + intros _. apply update_flag_flags_only.
Qed.

Lemma mode_frame_refl w : mode_frame w w.
Proof. split; [apply buffers_kept_refl|reflexivity]. Qed.

Lemma mode_frame_trans w1 w2 w3 :
  mode_frame w1 w2 -> mode_frame w2 w3 -> mode_frame w1 w3.
Proof.
  intros [A1 B1] [A2 B2]. split.
  - eapply buffers_kept_trans; eassumption.
  - eapply flags_only_trans; eassumption.
Qed.

Lemma eval_group_frame i g : preserves mode_frame (eval_group i g).
Proof.
  unfold eval_group. apply preserves_when; [apply mode_frame_refl|].
  apply (mode_loop_frame (params g) eval_param i false).
  apply eval_param_keeps_buffers.
Qed.

Lemma train_group_frame i g : preserves mode_frame (train_group i g).
Proof.
  unfold train_group.
  repeat (apply preserves_bind;
          [apply mode_frame_trans
          |apply preserves_py_div, mode_frame_refl|]; intros ?).
  apply preserves_when; [apply mode_frame_refl|].
  apply mode_loop_frame, train_param_keeps_buffers.
Qed.

(** [eval()], whatever its outcome, leaves every velocity buffer, every
    [true_params] buffer and every gradient as it was, keeps the size of
    every exposed value, and changes nothing in a group dictionary but
    the [transported] flag. *)
Theorem eval_writes_exposed_values_and_flags_only (w : World) :
  let w' := snd (eval w) in
  (forall p,
     param_state (view w' p) = param_state (view w p) /\
     grad (parameters w' !!! p) = grad (parameters w !!! p) /\
     length (data (parameters w' !!! p)) = length (data (parameters w !!! p)))
  /\
  map unflagged (param_groups (self w')) = map unflagged (param_groups (self w)).
Proof.
  apply (preserves_for_groups mode_frame eval_group mode_frame_refl
           mode_frame_trans eval_group_frame w).
Qed.

(** [train()], whatever its outcome, leaves every velocity buffer, every
    [true_params] buffer and every gradient as it was, keeps the size of
    every exposed value, and changes nothing in a group dictionary but
    the [transported] flag. *)
Theorem train_writes_exposed_values_and_flags_only (w : World) :
  let w' := snd (train w) in
  (forall p,
     param_state (view w' p) = param_state (view w p) /\
     grad (parameters w' !!! p) = grad (parameters w !!! p) /\
     length (data (parameters w' !!! p)) = length (data (parameters w !!! p)))
  /\
  map unflagged (param_groups (self w')) = map unflagged (param_groups (self w)).
Proof.
  apply (preserves_for_groups mode_frame train_group mode_frame_refl
           mode_frame_trans train_group_frame w).
Qed.

(** ** Calling [eval] or [train] twice *)

Lemma eval_not_transported w :
  Forall (fun g => transported g = false) (param_groups (self w)) ->
  eval w = (Ret tt, w).
Proof.
  intros H. unfold eval, for_groups. cbn [bind gets].
  apply for_each_skip. intros i. rewrite group_loop_body_unfold.
  destruct (param_groups (self w) !! i) as [g|] eqn:Eg; [|reflexivity].
  unfold eval_group. rewrite (Forall_lookup_1 _ _ _ _ H Eg). reflexivity.
Qed.

Lemma eval_flag_not_transported g : transported (eval_flag g) = false.
Proof. unfold eval_flag. destruct (transported g) eqn:E; [reflexivity|exact E]. Qed.

(** A completed [eval()] leaves every group with [transported] unset, and
    a second [eval()] right after it returns and changes nothing. *)
Theorem eval_twice (w w' : World) :
  eval w = (Ret tt, w') ->
  Forall (fun g => transported g = false) (param_groups (self w')) /\
  eval w' = (Ret tt, w').
Proof.
  intros H.
  assert (Forall (fun g => transported g = false) (param_groups (self w')))
    as Hf.
  { rewrite (eval_Ret_groups _ _ H). apply Forall_fmap, Forall_true.
    intros g. apply eval_flag_not_transported. }
  split; [exact Hf|apply eval_not_transported, Hf].
Qed.

Lemma eval_twice_witness :
  let w' := snd (eval after_one_step) in
  Forall (fun g => transported g = false) (param_groups (self w')) /\
  eval w' = (Ret tt, w').
Proof.
  apply (eval_twice after_one_step). vm_compute. reflexivity.
Defined.

Lemma py_div_Ret_nonzero {S} x y (s s' : S) q :
  py_div x y s = (Ret q, s') -> ~ y == 0.
Proof.
  unfold py_div. destruct (Qeq_bool y 0) eqn:E; [discriminate|].
  intros _. apply Qeq_bool_neq, E.
Qed.

Lemma train_group_Ret_divisions i g wa wb :
  train_group i g wa = (Ret tt, wb) ->
  ~ inject_Z (num_steps g) + delta g == 0 /\ ~ 1 - gamma_of g == 0.
Proof.
  unfold train_group. intros H.
  apply bind_Ret_inv in H as (gamma & w1 & H1 & H).
  apply bind_Ret_inv in H as (tr & w2 & H2 & H).
  pose proof (py_div_Ret_nonzero _ _ _ _ _ H1) as D1.
  apply py_div_Ret_inv in H1 as [-> ->].
  pose proof (py_div_Ret_nonzero _ _ _ _ _ H2) as D2.
  split; assumption.
Qed.

Lemma train_group_skip i g w :
  ~ inject_Z (num_steps g) + delta g == 0 -> ~ 1 - gamma_of g == 0 ->
  negb (transported g) && (0 <? num_steps g)%Z = false ->
  train_group i g w = (Ret tt, w).
Proof.
  intros D1 D2 Hc. unfold train_group.
  rewrite (bind_Ret _ _ _ _ _ (py_div_Ret _ _ w D1)).
  rewrite (bind_Ret _ _ _ _ _ (py_div_Ret _ _ w D2)).
  rewrite Hc. reflexivity.
Qed.

(** A completed [train()] sets the flag of the groups that were not
    transported and have made a step, and a second [train()] right after
    it returns and changes nothing. *)
Theorem train_twice (w w' : World) :
  train w = (Ret tt, w') ->
  param_groups (self w') = map train_flag (param_groups (self w)) /\
  train w' = (Ret tt, w').
Proof.
  intros H. pose proof (train_Ret_groups _ _ H) as Hg.
  split; [exact Hg|].
  unfold train, for_groups. cbn [bind gets].
  apply for_each_skip. intros i. rewrite group_loop_body_unfold, Hg.
  rewrite list_lookup_fmap.
  destruct (param_groups (self w) !! i) as [g|] eqn:Eg; [|reflexivity].
  cbn [fmap option_fmap option_map].
  destruct (group_loop_Ret_each train_group train_flag train_group_Ret_groups
              w w' i g H Eg) as (wa & wb & Hi).
  apply train_group_Ret_divisions in Hi as [D1 D2].
  unfold train_flag.
  destruct (negb (transported g) && (0 <? num_steps g)%Z) eqn:Ec.
  - apply train_group_skip; [exact D1|exact D2|reflexivity].
  - apply train_group_skip; assumption.
Qed.

Lemma train_twice_witness :
  let w := snd (eval after_one_step) in
  let w' := snd (train w) in
  param_groups (self w') = map train_flag (param_groups (self w)) /\
  train w' = (Ret tt, w').
Proof.
  apply (train_twice (snd (eval after_one_step))). vm_compute. reflexivity.
Defined.

(** ** [eval] exposes the true parameters *)

Lemma exposes_refl w : exposes w w.
Proof. split; [apply buffers_kept_refl|]. intros q. left. reflexivity. Qed.

Lemma exposes_trans w1 w2 w3 : exposes w1 w2 -> exposes w2 w3 -> exposes w1 w3.
Proof.
  intros [K12 E12] [K23 E23].
  split; [eapply buffers_kept_trans; eassumption|].
  intros q. destruct (E23 q) as [->|H]; [apply E12|].
  right. destruct (K12 q) as [<- _]. exact H.
Qed.

Lemma eval_param_exposes v :
  data (param (snd (eval_param v))) = data (param v) \/
  st_true_params (param_state v) = Some (data (param (snd (eval_param v)))).
Proof.
  destruct v as [[d g] [oi ot om]]. unfold eval_param.
  split_goal; auto.
Qed.

Lemma with_param_eval_exposes q : preserves exposes (with_param q eval_param).
Proof.
  intros w. split.
  { apply with_param_buffers_kept, eval_param_keeps_buffers. }
  intros p. unfold with_param.
  pose proof (eval_param_exposes (view w q)) as Hb.
  destruct (eval_param (view w q)) as [o v']. cbn [snd] in *.
  unfold put_view. cbn [parameters].
  destruct (decide (p = q)) as [->|Hne].
  - rewrite lookup_total_insert_eq. exact Hb.
  - rewrite lookup_total_insert_ne by congruence. left. reflexivity.
Qed.

Lemma eval_group_exposes i g : preserves exposes (eval_group i g).
Proof.
  unfold eval_group. apply preserves_when; [apply exposes_refl|].
  apply preserves_bind; [apply exposes_trans| |].
  - apply preserves_for_each; [apply exposes_refl|apply exposes_trans|].
    intros p. apply with_param_eval_exposes.
  - intros _ w. split; [apply update_group_buffers_kept|].
    intros q. left. reflexivity.
Qed.

Lemma eval_loop_Ret_exposes l :
  forall w w' p,
  for_each l (fun p => with_param p eval_param) w = (Ret tt, w') ->
  p ∈ l ->
  st_true_params (param_state (view w p)) = Some (data (parameters w' !!! p)).
Proof.
  induction l as [|q l IH]; intros w w' p H Hin; [inversion Hin|].
  rewrite for_each_cons in H.
  destruct (with_param q eval_param w) as [[[]|e] w1] eqn:E1; [|discriminate].
  pose proof (with_param_eval_exposes q w) as [K1 _]. rewrite E1 in K1.
  cbn [snd] in K1.
  apply elem_of_cons in Hin as [->|Hin].
  - unfold with_param in E1.
    destruct (eval_param (view w q)) as [o v1] eqn:Ev.
    injection E1 as -> <-. apply eval_param_Ret in Ev.
    assert (preserves exposes
              (for_each l (fun p => with_param p eval_param))) as Hl.
    { apply preserves_for_each; [apply exposes_refl|apply exposes_trans|].
      intros p. apply with_param_eval_exposes. }
    specialize (Hl (put_view q v1 w)). rewrite H in Hl. cbn [snd] in Hl.
    destruct Hl as [K E]. destruct (E q) as [Hq|Hq].
    + rewrite Hq, Ev. unfold put_view. cbn [parameters].
      rewrite lookup_total_insert_eq. reflexivity.
    + rewrite view_put_view_eq in Hq.
      destruct (K1 q) as [Hs _]. rewrite view_put_view_eq in Hs.
      rewrite <- Hs. exact Hq.
  - destruct (K1 p) as [<- _]. apply (IH w1 w' p H Hin).
Qed.

Lemma eval_groups_Ret_exposes k :
  forall i w w',
  (i + k)%nat = length (param_groups (self w)) ->
  for_each (seq i k) (group_loop_body eval_group) w = (Ret tt, w') ->
  forall j g p,
    (i <= j)%nat -> param_groups (self w) !! j = Some g ->
    transported g = true -> p ∈ params g ->
    st_true_params (param_state (view w p))
    = Some (data (parameters w' !!! p)).
Proof.
  induction k as [|k IH]; intros i w w' Hlen H j g p Hj Hg Ht Hp.
  - apply lookup_lt_Some in Hg. lia.
  - cbn [seq] in H. rewrite for_each_cons, group_loop_body_unfold in H.
    destruct (param_groups (self w) !! i) as [gi|] eqn:Eg.
    2:{ apply lookup_ge_None in Eg. lia. }
    destruct (eval_group i gi w) as [[[]|e] w1] eqn:E1; [|discriminate].
    pose proof (eval_group_Ret_groups _ _ _ _ Eg E1) as Hg1.
    pose proof (eval_group_exposes i gi w) as [K1 _]. rewrite E1 in K1.
    cbn [snd] in K1.
    assert (preserves exposes
              (for_each (seq (S i) k) (group_loop_body eval_group))) as Hl.
    { apply preserves_for_each; [apply exposes_refl|apply exposes_trans|].
      intros i'. unfold group_loop_body.
      apply preserves_bind; [apply exposes_trans| |].
      - apply preserves_gets, exposes_refl.
      - intros [g'|]; [apply eval_group_exposes|].
        apply preserves_ret, exposes_refl. }
    specialize (Hl w1). rewrite H in Hl. cbn [snd] in Hl.
    destruct (decide (j = i)) as [->|Hne].
    + rewrite Eg in Hg. injection Hg as ->.
      unfold eval_group in E1. rewrite Ht in E1. cbn [when] in E1.
      apply bind_Ret_inv in E1 as ([] & w0 & E0 & E1).
      injection E1 as <-.
      pose proof (eval_loop_Ret_exposes _ _ _ p E0 Hp) as Hx.
      destruct Hl as [K E]. destruct (E p) as [Hq|Hq].
      * rewrite Hq. exact Hx.
      * destruct (K1 p) as [Hs _]. rewrite <- Hs. exact Hq.
    + destruct (K1 p) as [<- _].
      apply (IH (S i) w1 w') with (j := j) (g := g);
        try assumption; try lia.
      * rewrite Hg1, length_alter. lia.
      * rewrite Hg1, list_lookup_alter_ne by congruence. exact Hg.
Qed.

(** After a completed [eval()], every parameter of a group that was
    transported is exposed at exactly its [true_params]. *)
Theorem eval_exposes_true_params (w w' : World) j g p :
  eval w = (Ret tt, w') ->
  param_groups (self w) !! j = Some g ->
  transported g = true ->
  p ∈ params g ->
  st_true_params (param_state (view w' p)) = Some (data (parameters w' !!! p)).
Proof.
  intros H Hg Ht Hp.
  destruct (eval_writes_exposed_values_and_flags_only w) as [K _].
  rewrite H in K. cbn [snd] in K. destruct (K p) as [-> _].
  unfold eval, for_groups in H.
  apply bind_Ret_inv in H as (n & w0 & H0 & H). injection H0 as <- <-.
  apply (eval_groups_Ret_exposes _ 0%nat w w' eq_refl H j g p);
    [lia|assumption..].
Qed.

Lemma eval_exposes_true_params_witness :
  let w' := snd (eval after_one_step) in
  st_true_params (param_state (view w' 0%nat))
  = Some (data (parameters w' !!! 0%nat)).
Proof.
  apply (eval_exposes_true_params after_one_step (snd (eval after_one_step))
           0%nat (advance (new_group [0%nat] 0.1 0 0 0.5 false 1)) 0%nat).
  - vm_compute. reflexivity.
  - reflexivity.
  - reflexivity.
  - apply list_elem_of_here.
Defined.

(** ** Following one parameter through a loop over the groups *)

Lemma only_in_group_alter_params p j i f w w' :
  (forall x, params (f x) = params x) ->
  only_in_group p j w ->
  param_groups (self w') = alter f i (param_groups (self w)) ->
  only_in_group p j w'.
Proof.
  intros Hf Ho E j' g' Hne. rewrite E.
  rewrite list_lookup_alter. case_decide as Hd; [subst j'|apply Ho, Hne].
  destruct (param_groups (self w) !! i) as [g0|] eqn:E0; cbn; [|discriminate].
  intros [= <-]. rewrite Hf. eapply Ho; [exact Hne|exact E0].
Qed.

Lemma param_loop_untouched p l (body : Py PView unit) :
  p ∉ l -> preserves (untouched p) (for_each l (fun q => with_param q body)).
Proof.
  intros Hp. apply preserves_for_each_in.
  - apply untouched_refl.
  - apply untouched_trans.
  - intros q Hq. apply with_param_untouched. intros ->. contradiction.
Qed.

Lemma param_loop_at (body : Py PView unit) p l :
  forall w w',
  NoDup l -> p ∈ l ->
  for_each l (fun q => with_param q body) w = (Ret tt, w') ->
  body (view w p) = (Ret tt, view w' p).
Proof.
  induction l as [|q l IH]; intros w w' Hnd Hin H; [inversion Hin|].
  apply NoDup_cons in Hnd as [Hq Hnd]. rewrite for_each_cons in H.
  destruct (with_param q body w) as [[[]|e] w1] eqn:E1; [|discriminate].
  destruct (decide (p = q)) as [->|Hne].
  - unfold with_param in E1. destruct (body (view w q)) as [o v1] eqn:E.
    injection E1 as Ho Hw. subst o w1.
    pose proof (param_loop_untouched q l body Hq (put_view q v1 w)) as Hu.
    rewrite H in Hu. cbn in Hu. apply untouched_view in Hu.
    rewrite Hu, view_put_view_eq. reflexivity.
  - pose proof (with_param_untouched p q body Hne w) as Hu.
    rewrite E1 in Hu. cbn in Hu.
    apply elem_of_cons in Hin as [?|Hin]; [contradiction|].
    rewrite <- (untouched_view _ _ _ Hu). apply (IH w1 w' Hnd Hin H).
Qed.

Section GroupLoopAt.
Variable gb : nat -> Group -> Py World unit.
Variables p j : nat.
Hypothesis gb_untouched :
  forall i g, p ∉ params g -> preserves (untouched p) (gb i g).
Hypothesis gb_groups :
  forall i g w, exists f,
    (forall x, params (f x) = params x) /\
    param_groups (self (snd (gb i g w))) = alter f i (param_groups (self w)).

Lemma group_body_kept_apart i :
  i <> j -> preserves (kept_apart p j) (group_loop_body gb i).
Proof.
  intros Hne w Ho. rewrite group_loop_body_unfold.
  destruct (param_groups (self w) !! i) as [g|] eqn:Eg.
  2:{ apply kept_apart_refl, Ho. }
  destruct (gb_groups i g w) as (f & Hf & Hgs).
  split; [apply gb_untouched; eapply Ho; eassumption|].
  split; [eapply only_in_group_alter_params; eassumption|].
  rewrite Hgs. apply list_lookup_alter_ne, Hne.
Qed.

Lemma group_loop_kept_apart l :
  j ∉ l -> preserves (kept_apart p j) (for_each l (group_loop_body gb)).
Proof.
  intros Hj. apply preserves_for_each_in.
  - apply kept_apart_refl.
  - apply kept_apart_trans.
  - intros i Hi. apply group_body_kept_apart. intros ->. contradiction.
Qed.

(** In a completed loop the body of the [j]-th group has run once, and
    the parameter [p] of that group was touched by it only. *)
Lemma for_groups_at w w' g :
  param_groups (self w) !! j = Some g ->
  only_in_group p j w ->
  for_groups gb w = (Ret tt, w') ->
  exists wa wb,
    untouched p w wa /\ param_groups (self wa) !! j = Some g /\
    only_in_group p j wa /\
    gb j g wa = (Ret tt, wb) /\ untouched p wb w'.
Proof.
  intros Hj Ho H. unfold for_groups in H.
  apply bind_Ret_inv in H as (n & w0 & H0 & H). injection H0 as <- <-.
  pose proof (lookup_lt_Some _ _ _ Hj) as Hlt.
  replace (length (param_groups (self w)))
    with (j + S (length (param_groups (self w)) - S j))%nat in H by lia.
  rewrite seq_app, for_each_app in H. cbn [seq Nat.add] in H.
  apply bind_Ret_inv in H as ([] & wa & Ha & H).
  rewrite for_each_cons, group_loop_body_unfold in H.
  pose proof (group_loop_kept_apart (seq 0 j)) as Ka.
  specialize (Ka ltac:(rewrite elem_of_seq; lia) w Ho).
  rewrite Ha in Ka. cbn in Ka. destruct Ka as (Ua & Oa & Ja).
  rewrite Ja, Hj in H.
  destruct (gb j g wa) as [[[]|e] wb] eqn:Eb; [|discriminate].
  exists wa, wb. split; [exact Ua|]. split; [congruence|].
  split; [exact Oa|]. split; [exact Eb|].
  pose proof (group_loop_kept_apart
                (seq (S j) (length (param_groups (self w)) - S j))) as Kc.
  specialize (Kc ltac:(rewrite elem_of_seq; lia) wb).
  rewrite H in Kc. cbn [snd] in Kc. apply Kc.
  destruct (gb_groups j g wa) as (f & Hf & Hgs). rewrite Eb in Hgs.
  eapply only_in_group_alter_params; eassumption.
Qed.
End GroupLoopAt.

(** ** What [train] does to one parameter *)

Lemma train_group_untouched p i g :
  p ∉ params g -> preserves (untouched p) (train_group i g).
Proof.
  intros Hp. pose proof (untouched_refl p) as Hr.
  pose proof (untouched_trans p) as Ht. unfold train_group.
  repeat (apply preserves_bind; [assumption|apply preserves_py_div; assumption|];
          intros ?).
  apply preserves_when; [assumption|].
  apply preserves_bind; [assumption|apply param_loop_untouched, Hp|].
  intros _. apply update_group_untouched.
Qed.

Lemma train_group_groups i g w :
  exists f,
    (forall x, params (f x) = params x) /\
    param_groups (self (snd (train_group i g w)))
    = alter f i (param_groups (self w)).
Proof.
  assert (param_groups (self (snd (train_group i g w))) = param_groups (self w)
          \/ param_groups (self (snd (train_group i g w)))
             = alter (set_transported true) i (param_groups (self w)))
    as [E|E].
  { unfold train_group, bind.
    destruct (py_div _ _ w) as [[gamma|e] w1] eqn:E1;
      apply py_div_inv in E1 as ->; [|left; reflexivity].
    destruct (py_div _ _ w) as [[tr|e] w1] eqn:E2;
      apply py_div_inv in E2 as ->; [|left; reflexivity].
    destruct (negb (transported g) && (0 <? num_steps g)%Z);
      [|left; reflexivity]. cbn [when].
    destruct (for_each _ _ w) as [[[]|e] w4] eqn:E4;
      apply with_param_loop_groups in E4; cbn; rewrite E4; auto. }
  - exists id. split; [reflexivity|]. rewrite E.
    symmetry. apply list_alter_id. reflexivity.
  - exists (set_transported true). split; [reflexivity|exact E].
Qed.

Lemma train_at (w w' : World) j g p :
  registered w j g p ->
  transported g = false -> (0 < num_steps g)%Z ->
  train w = (Ret tt, w') ->
  train_param g (gamma_of g / (1 - gamma_of g)) (view w p)
  = (Ret tt, view w' p).
Proof.
  intros (Hj & Hin & Hnd & Ho) Ht Hn H.
  destruct (for_groups_at train_group p j
              (train_group_untouched p) train_group_groups w w' g Hj Ho H)
    as (wa & wb & Ua & Ja & Oa & Hb & Ub).
  unfold train_group in Hb.
  apply bind_Ret_inv in Hb as (gamma & w1 & H1 & Hb).
  apply bind_Ret_inv in Hb as (tr & w2 & H2 & Hb).
  apply py_div_Ret_inv in H1 as [-> ->]. apply py_div_Ret_inv in H2 as [-> ->].
  rewrite Ht in Hb. apply Z.ltb_lt in Hn. rewrite Hn in Hb. cbn [negb andb when] in Hb.
  apply bind_Ret_inv in Hb as ([] & w1 & Hloop & Hb). injection Hb as <-.
  apply (param_loop_at _ p _ _ _ Hnd Hin) in Hloop.
  rewrite (untouched_view _ _ _ Ua) in Hloop.
  rewrite (untouched_view _ _ _ Ub). exact Hloop.
Qed.

Lemma transport_closed_form a d :
  ~ a + d == 0 -> ~ 1 - a / (a + d) == 0 ->
  ~ d == 0 /\ a / (a + d) / (1 - a / (a + d)) == a / d.
Proof.
  intros H1 H2.
  assert (~ d == 0) as Hd.
  { intros Hd. apply H2. rewrite Hd. field. rewrite Hd in H1. lra. }
  split; [exact Hd|]. field. split; assumption.
Qed.

(** After a completed [train()], a parameter of a group that was not
    transported and has made a step is exposed at the projection of its
    stored buffers: [true_params] moved ahead along the velocities by
    [transport = gamma / (1 - gamma)], which is [num_steps / delta]; its
    buffers are those it had. *)
Theorem train_exposes_the_projection (w w' : World) j g p :
  registered w j g p ->
  transported g = false -> (0 < num_steps g)%Z ->
  train w = (Ret tt, w') ->
  let transport := gamma_of g / (1 - gamma_of g) in
  transport == inject_Z (num_steps g) / delta g /\
  exists t igt mv,
    st_true_params (param_state (view w' p)) = Some t /\
    st_igt_velocity (param_state (view w' p)) = Some igt /\
    (is_zero (momentum g) = false ->
     st_momentum_velocity (param_state (view w' p)) = Some mv) /\
    data (parameters w' !!! p) = projection g transport t igt mv.
Proof.
  intros Hreg Ht Hn H transport. split.
  - destruct Hreg as (Hj & _).
    destruct (group_loop_Ret_each train_group train_flag train_group_Ret_groups
                w w' j g H Hj) as (wa & wb & Hi).
    apply train_group_Ret_divisions in Hi as [D1 D2].
    apply (transport_closed_form _ _ D1 D2).
  - pose proof (train_at w w' j g p Hreg Ht Hn H) as Hp.
    destruct (train_param_keeps_buffers g transport (view w p)) as (Ks & _).
    fold transport in Hp. rewrite Hp in Ks. cbn [snd] in Ks.
    apply train_param_Ret in Hp as (t & igt & mv & H1 & H2 & H3 & H4).
    exists t, igt, mv. rewrite Ks. repeat split; assumption.
Qed.

Lemma train_exposes_the_projection_witness :
  let w := snd (eval after_one_step) in
  let g := set_transported false
             (advance (new_group [0%nat] 0.1 0 0 0.5 false 1)) in
  let transport := gamma_of g / (1 - gamma_of g) in
  transport == inject_Z (num_steps g) / delta g /\
  exists t igt mv,
    st_true_params (param_state (view (snd (train w)) 0%nat)) = Some t /\
    st_igt_velocity (param_state (view (snd (train w)) 0%nat)) = Some igt /\
    (is_zero (momentum g) = false ->
     st_momentum_velocity (param_state (view (snd (train w)) 0%nat))
     = Some mv) /\
    data (parameters (snd (train w)) !!! 0%nat)
    = projection g transport t igt mv.
Proof.
  apply (train_exposes_the_projection (snd (eval after_one_step))
           (snd (train (snd (eval after_one_step)))) 0%nat
           (set_transported false
              (advance (new_group [0%nat] 0.1 0 0 0.5 false 1))) 0%nat).
  - split; [reflexivity|]. split; [apply list_elem_of_here|].
    split; [apply NoDup_singleton|]. eapply only_in_group_single. reflexivity.
  - reflexivity.
  - reflexivity.
  - vm_compute. reflexivity.
Defined.

(** ** The equations of [step] *)

Lemma step_param_Ret_momentum group gamma ft v v' :
  is_zero (momentum group) = false ->
  step_param group gamma ft v = (Ret tt, v') ->
  exists m0 igt',
    (st_momentum_velocity (param_state v) = Some m0 \/
     (st_momentum_velocity (param_state v) = None /\ num_steps group = 0%Z /\
      m0 = zeros (length (data (param v))))) /\
    st_igt_velocity (param_state v') = Some igt' /\
    st_momentum_velocity (param_state v') =
    Some (if (num_steps group =? 0)%Z then axpy m0 1 igt'
          else axpy (scale (momentum group) m0) (1 - dampening group) igt').
Proof.
  destruct v as [[d og] [oi ot om]]. unfold step_param.
  intros Hm H. rewrite Hm in H.
  destruct og as [g|].
  2:{ destruct (is_zero (weight_decay group)), (nesterov group), oi, ot, om;
        destruct (num_steps group =? 0)%Z; split_in H. }
  destruct (is_zero (weight_decay group)), (nesterov group),
    oi as [vi|], ot as [vt|], om as [vm|];
    destruct (num_steps group =? 0)%Z eqn:En.
  all: split_in H.
  all: injection H as Hv; subst v'; cbn.
  all: try match goal with
           | E : (num_steps _ =? 0)%Z = true |- _ => apply Z.eqb_eq in E
           end.
  all: try (do 2 eexists; split; [left; reflexivity|]; split; reflexivity).
  all: try (do 2 eexists;
            split; [right; repeat split; try assumption; reflexivity|];
            split; reflexivity).
Qed.

(** In a completed [step], for a parameter with gradient [g]: the gradient
    buffer ends as the effective gradient [eff] ([g], or
    [g + weight_decay * p.data]); the IGT velocity becomes [v0 + eff] at
    [num_steps == 0] and [gamma * v0 + (1 - gamma) * eff] afterwards; under
    momentum the momentum velocity becomes [m0 + igt_velocity] at
    [num_steps == 0] and
    [momentum * m0 + (1 - dampening) * igt_velocity] afterwards.  [v0] and
    [m0] are the stored buffers, or zeros of the size of the parameter
    where [num_steps == 0] finds none. *)
Theorem step_updates_the_velocities
    {L} (w w' : World) (loss : option L) j group p g :
  registered w j group p ->
  grad (parameters w !!! p) = Some g ->
  step None w = (Ret loss, w') ->
  let d := data (parameters w !!! p) in
  let eff := effective_gradient group d g in
  grad (parameters w' !!! p) = Some eff /\
  exists v0 igt',
    (st_igt_velocity (param_state (view w p)) = Some v0 \/
     (st_igt_velocity (param_state (view w p)) = None /\
      num_steps group = 0%Z /\ v0 = zeros (length d))) /\
    st_igt_velocity (param_state (view w' p)) = Some igt' /\
    igt' = (if (num_steps group =? 0)%Z then axpy v0 1 eff
            else axpy (scale (gamma_of group) v0) (1 - gamma_of group) eff) /\
    (~ momentum group == 0 ->
     exists m0,
       (st_momentum_velocity (param_state (view w p)) = Some m0 \/
        (st_momentum_velocity (param_state (view w p)) = None /\
         num_steps group = 0%Z /\ m0 = zeros (length d))) /\
       st_momentum_velocity (param_state (view w' p)) =
       Some (if (num_steps group =? 0)%Z then axpy m0 1 igt'
             else axpy (scale (momentum group) m0) (1 - dampening group)
                    igt')).
Proof.
  intros (Hj & Hin & Hnd & Ho) Hg Hs d eff.
  pose proof (step_at w w' loss j group p g Hj Hin Hnd Ho Hg Hs) as Hp.
  pose proof Hp as Hp2.
  apply (step_param_Ret_gradient_velocity _ _ _ _ _ g) in Hp2; [|exact Hg].
  destruct Hp2 as (Hgrad & v0 & Hv0 & Hv).
  split; [exact Hgrad|]. exists v0. eexists.
  split; [exact Hv0|]. split; [exact Hv|]. split; [reflexivity|].
  intros Hm. apply is_zero_false in Hm.
  destruct (step_param_Ret_momentum _ _ _ _ _ Hm Hp)
    as (m0 & igt' & Hm0 & Hi & Hmv).
  exists m0. split; [exact Hm0|]. rewrite Hmv.
  rewrite Hv in Hi. injection Hi as <-. reflexivity.
Qed.

Lemma step_updates_the_velocities_witness :
  let w := fresh_world [1] (Some [2]) 0.1 0.9 0 0 true 1 in
  let group := new_group [0%nat] 0.1 0.9 0 0 true 1 in
  let w' := snd (step (L:=unit) None w) in
  let d := data (parameters w !!! 0%nat) in
  let eff := effective_gradient group d [2] in
  grad (parameters w' !!! 0%nat) = Some eff /\
  exists v0 igt',
    (st_igt_velocity (param_state (view w 0%nat)) = Some v0 \/
     (st_igt_velocity (param_state (view w 0%nat)) = None /\
      num_steps group = 0%Z /\ v0 = zeros (length d))) /\
    st_igt_velocity (param_state (view w' 0%nat)) = Some igt' /\
    igt' = (if (num_steps group =? 0)%Z then axpy v0 1 eff
            else axpy (scale (gamma_of group) v0) (1 - gamma_of group) eff) /\
    (~ momentum group == 0 ->
     exists m0,
       (st_momentum_velocity (param_state (view w 0%nat)) = Some m0 \/
        (st_momentum_velocity (param_state (view w 0%nat)) = None /\
         num_steps group = 0%Z /\ m0 = zeros (length d))) /\
       st_momentum_velocity (param_state (view w' 0%nat)) =
       Some (if (num_steps group =? 0)%Z then axpy m0 1 igt'
             else axpy (scale (momentum group) m0) (1 - dampening group)
                    igt')).
Proof.
  apply (step_updates_the_velocities (L:=unit)
           (fresh_world [1] (Some [2]) 0.1 0.9 0 0 true 1)
           (snd (step (L:=unit) None
                   (fresh_world [1] (Some [2]) 0.1 0.9 0 0 true 1)))
           None 0%nat (new_group [0%nat] 0.1 0.9 0 0 true 1) 0%nat [2]).
  - apply registered_fresh_world.
    intros [H|[H|[_ [H|H]]]]; [lra|lra|lra|apply H; reflexivity].
  - reflexivity.
  - vm_compute. reflexivity.
Defined.

Lemma step_group_Ret_advance i g wa wb :
  param_groups (self wa) !! i = Some g ->
  step_group i g wa = (Ret tt, wb) ->
  param_groups (self wb) = alter advance i (param_groups (self wa)).
Proof.
  intros Hg H. rewrite (step_group_Ret_groups _ _ _ _ H).
  apply (alter_same_at _ _ _ _ g Hg). reflexivity.
Qed.

Lemma step_group_Ret_divisions i g wa wb :
  step_group i g wa = (Ret tt, wb) ->
  ~ inject_Z (num_steps g + 1) + delta g == 0 /\
  ~ 1 - future_gamma_of g == 0.
Proof.
  unfold step_group. intros H.
  apply bind_Ret_inv in H as (gamma & w1 & H1 & H).
  apply bind_Ret_inv in H as (fg & w2 & H2 & H).
  apply bind_Ret_inv in H as (ft & w3 & H3 & H).
  pose proof (py_div_Ret_nonzero _ _ _ _ _ H2) as D2.
  apply py_div_Ret_inv in H2 as [-> ->].
  pose proof (py_div_Ret_nonzero _ _ _ _ _ H3) as D3.
  split; assumption.
Qed.

Lemma step_Ret_each {L} (w w' : World) (loss : option L) i g :
  step None w = (Ret loss, w') ->
  param_groups (self w) !! i = Some g ->
  exists wa wb, step_group i g wa = (Ret tt, wb).
Proof.
  unfold step. intros H Hg.
  apply bind_Ret_inv in H as (l0 & w0 & H0 & H). injection H0 as <- <-.
  apply bind_Ret_inv in H as ([] & w3 & H & Hr).
  apply (group_loop_Ret_each step_group advance step_group_Ret_advance
           w w3 i g H Hg).
Qed.

(** In a completed [step], for a parameter with a gradient: the new
    [true_params] are the old ones ([p.data] itself where [num_steps == 0]
    finds none) advanced along the new velocities by [lr], in the way of
    the mode of the group; and the exposed value is the projection of the
    new [true_params] along the same velocities by
    [future_transport = future_gamma / (1 - future_gamma)], which is
    [(num_steps + 1) / delta]. *)
Theorem step_advances_and_exposes
    {L} (w w' : World) (loss : option L) j group p g :
  registered w j group p ->
  grad (parameters w !!! p) = Some g ->
  step None w = (Ret loss, w') ->
  let ft := future_transport_of group in
  ft == inject_Z (num_steps group + 1) / delta group /\
  exists t0 t' igt' mv',
    (st_true_params (param_state (view w p)) = Some t0 \/
     (st_true_params (param_state (view w p)) = None /\
      num_steps group = 0%Z /\ t0 = data (parameters w !!! p))) /\
    st_true_params (param_state (view w' p)) = Some t' /\
    st_igt_velocity (param_state (view w' p)) = Some igt' /\
    (is_zero (momentum group) = false ->
     st_momentum_velocity (param_state (view w' p)) = Some mv') /\
    t' = advanced group t0 igt' mv' /\
    data (parameters w' !!! p) = projection group ft t' igt' mv'.
Proof.
  intros (Hj & Hin & Hnd & Ho) Hg Hs ft. split.
  - destruct (step_Ret_each w w' loss j group Hs Hj) as (wa & wb & Hi).
    apply step_group_Ret_divisions in Hi as [D1 D2].
    apply (transport_closed_form _ _ D1 D2).
  - pose proof (step_at w w' loss j group p g Hj Hin Hnd Ho Hg Hs) as Hp.
    apply step_param_Ret_exposed in Hp. exact Hp.
Qed.

Lemma step_advances_and_exposes_witness :
  let w := fresh_world [1] (Some [2]) 0.1 0.9 0 0 true 1 in
  let group := new_group [0%nat] 0.1 0.9 0 0 true 1 in
  let w' := snd (step (L:=unit) None w) in
  let ft := future_transport_of group in
  ft == inject_Z (num_steps group + 1) / delta group /\
  exists t0 t' igt' mv',
    (st_true_params (param_state (view w 0%nat)) = Some t0 \/
     (st_true_params (param_state (view w 0%nat)) = None /\
      num_steps group = 0%Z /\ t0 = data (parameters w !!! 0%nat))) /\
    st_true_params (param_state (view w' 0%nat)) = Some t' /\
    st_igt_velocity (param_state (view w' 0%nat)) = Some igt' /\
    (is_zero (momentum group) = false ->
     st_momentum_velocity (param_state (view w' 0%nat)) = Some mv') /\
    t' = advanced group t0 igt' mv' /\
    data (parameters w' !!! 0%nat) = projection group ft t' igt' mv'.
Proof.
  apply (step_advances_and_exposes (L:=unit)
           (fresh_world [1] (Some [2]) 0.1 0.9 0 0 true 1)
           (snd (step (L:=unit) None
                   (fresh_world [1] (Some [2]) 0.1 0.9 0 0 true 1)))
           None 0%nat (new_group [0%nat] 0.1 0.9 0 0 true 1) 0%nat [2]).
  - apply registered_fresh_world.
    intros [H|[H|[_ [H|H]]]]; [lra|lra|lra|apply H; reflexivity].
  - reflexivity.
  - vm_compute. reflexivity.
Defined.

(** ** [step], [eval], [train]: the round trip *)

Lemma only_in_group_map p j f w w' :
  (forall x, params (f x) = params x) ->
  only_in_group p j w ->
  param_groups (self w') = map f (param_groups (self w)) ->
  only_in_group p j w'.
Proof.
  intros Hf Ho E j' g' Hne. rewrite E, list_lookup_fmap.
  destruct (param_groups (self w) !! j') as [g0|] eqn:E0; cbn; [|discriminate].
  intros [= <-]. rewrite Hf. eapply Ho; [exact Hne|exact E0].
Qed.

Lemma registered_map p j f g w w' :
  (forall x, params (f x) = params x) ->
  registered w j g p ->
  param_groups (self w') = map f (param_groups (self w)) ->
  registered w' j (f g) p.
Proof.
  intros Hf (Hj & Hin & Hnd & Ho) E. split.
  { rewrite E, list_lookup_fmap, Hj. reflexivity. }
  rewrite Hf. split; [exact Hin|]. split; [exact Hnd|].
  eapply only_in_group_map; eassumption.
Qed.

Lemma params_advance g : params (advance g) = params g.
Proof. reflexivity. Qed.

Lemma params_eval_flag g : params (eval_flag g) = params g.
Proof. unfold eval_flag. destruct (transported g); reflexivity. Qed.

(** After a completed [step], [eval()] followed by [train()] puts every
    parameter that the step updated back to the exposed value the step
    gave it, with its buffers and its gradient as the step left them:
    [train] recomputes the look-ahead from a [gamma] that is the
    [future_gamma] of the step. *)
Theorem step_eval_train_round_trip
    {L} (w w1 w2 w3 : World) (loss : option L) j group p g :
  registered w j group p ->
  grad (parameters w !!! p) = Some g ->
  (0 <= num_steps group)%Z ->
  step None w = (Ret loss, w1) ->
  eval w1 = (Ret tt, w2) ->
  train w2 = (Ret tt, w3) ->
  view w3 p = view w1 p.
Proof.
  intros Hreg Hg Hn Hs He Ht.
  pose proof Hreg as (Hj & Hin & Hnd & Ho).
  pose proof (step_at w w1 loss j group p g Hj Hin Hnd Ho Hg Hs) as Hp.
  apply step_param_Ret_exposed in Hp
    as (t0 & t' & igt' & mv' & _ & Ht' & Hi' & Hm' & _ & Hd).
  (* the group after the step and after [eval] *)
  pose proof (registered_map p j advance group w w1 params_advance Hreg
                (step_Ret_groups _ _ _ Hs)) as Hreg1.
  pose proof (registered_map p j eval_flag (advance group) w1 w2
                params_eval_flag Hreg1 (eval_Ret_groups _ _ He)) as Hreg2.
  set (g2 := eval_flag (advance group)) in *.
  assert (transported g2 = false) as Hf by apply eval_flag_not_transported.
  assert (lr g2 = lr group /\ momentum g2 = momentum group /\
          nesterov g2 = nesterov group /\
          gamma_of g2 / (1 - gamma_of g2) = future_transport_of group /\
          num_steps g2 = (num_steps group + 1)%Z)
    as (Elr & Emo & Ene & Etr & Enum).
  { subst g2. unfold eval_flag.
    destruct (transported (advance group)); repeat split. }
  pose proof (train_at w2 w3 j g2 p Hreg2 Hf ltac:(lia) Ht) as Hp2.
  destruct (train_param_keeps_buffers g2 (gamma_of g2 / (1 - gamma_of g2))
              (view w2 p)) as (Ks & Kg & _).
  rewrite Hp2 in Ks, Kg. cbn [snd] in Ks, Kg.
  destruct (eval_writes_exposed_values_and_flags_only w1) as [K _].
  rewrite He in K. cbn [snd] in K. destruct (K p) as (Ss & Sg & _).
  apply train_param_Ret in Hp2 as (t & igt & mv & H1 & H2 & H3 & H4).
  rewrite Ss in H1, H2, H3. rewrite Ht' in H1. rewrite Hi' in H2.
  injection H1 as <-. injection H2 as <-.
  assert (data (param (view w3 p)) = data (param (view w1 p))) as Ed.
  { rewrite H4, Hd. unfold projection. rewrite Elr, Emo, Ene, Etr.
    rewrite Emo in H3.
    destruct (is_zero (momentum group)) eqn:Em; [reflexivity|].
    specialize (H3 eq_refl). specialize (Hm' eq_refl).
    rewrite H3 in Hm'. injection Hm' as ->. reflexivity. }
  assert (param_state (view w3 p) = param_state (view w1 p)) as Es
    by congruence.
  assert (grad (param (view w3 p)) = grad (param (view w1 p))) as Eg.
  { rewrite Kg. exact Sg. }
  destruct (view w3 p) as [[d3 g3] s3], (view w1 p) as [[d1 g1] s1].
  cbn in *. congruence.
Qed.

Lemma step_eval_train_round_trip_witness :
  let w := fresh_world [1] (Some [2]) 0.1 0.9 0 0 true 1 in
  let w1 := snd (step (L:=unit) None w) in
  let w2 := snd (eval w1) in
  let w3 := snd (train w2) in
  view w3 0%nat = view w1 0%nat.
Proof.
  intros w w1 w2 w3.
  apply (step_eval_train_round_trip (L:=unit) w w1 w2 w3
           None 0%nat (new_group [0%nat] 0.1 0.9 0 0 true 1) 0%nat [2]).
  - apply registered_fresh_world.
    intros [H|[H|[_ [H|H]]]]; [lra|lra|lra|apply H; reflexivity].
  - reflexivity.
  - discriminate.
  - vm_compute. reflexivity.
  - vm_compute. reflexivity.
  - vm_compute. reflexivity.
Defined.

Lemma train_at_skip (w w' : World) j g p :
  registered w j g p ->
  negb (transported g) && (0 <? num_steps g)%Z = false ->
  train w = (Ret tt, w') ->
  view w' p = view w p.
Proof.
  intros (Hj & Hin & Hnd & Ho) Hc H.
  destruct (for_groups_at train_group p j
              (train_group_untouched p) train_group_groups w w' g Hj Ho H)
    as (wa & wb & Ua & Ja & Oa & Hb & Ub).
  pose proof (train_group_Ret_divisions _ _ _ _ Hb) as [D1 D2].
  rewrite (train_group_skip j g wa D1 D2 Hc) in Hb. injection Hb as <-.
  rewrite (untouched_view _ _ _ Ub). apply untouched_view, Ua.
Qed.

(** [step] never sets the [transported] flag, yet a [train()] that comes
    right after a completed [step] leaves every parameter the step updated
    exactly as the step left it, whether the flag was set or not: where it
    is not set, [train] recomputes the very value the step exposed. *)
Theorem train_after_step_keeps_the_exposed_value
    {L} (w w1 w2 : World) (loss : option L) j group p g :
  registered w j group p ->
  grad (parameters w !!! p) = Some g ->
  (0 <= num_steps group)%Z ->
  step None w = (Ret loss, w1) ->
  train w1 = (Ret tt, w2) ->
  map transported (param_groups (self w1))
  = map transported (param_groups (self w)) /\
  view w2 p = view w1 p.
Proof.
  intros Hreg Hg Hn Hs Ht. split.
  { rewrite (step_Ret_groups _ _ _ Hs), map_map. reflexivity. }
  pose proof Hreg as (Hj & Hin & Hnd & Ho).
  pose proof (registered_map p j advance group w w1 params_advance Hreg
                (step_Ret_groups _ _ _ Hs)) as Hreg1.
  destruct (transported group) eqn:Et.
  { apply (train_at_skip w1 w2 j (advance group) p Hreg1); [|exact Ht].
    cbn. rewrite Et. reflexivity. }
  pose proof (step_at w w1 loss j group p g Hj Hin Hnd Ho Hg Hs) as Hp.
  apply step_param_Ret_exposed in Hp
    as (t0 & t' & igt' & mv' & _ & Ht' & Hi' & Hm' & _ & Hd).
  assert ((0 < num_steps (advance group))%Z) as Hn1 by (cbn; lia).
  pose proof (train_at w1 w2 j (advance group) p Hreg1 Et Hn1 Ht) as Hp2.
  destruct (train_param_keeps_buffers (advance group)
              (gamma_of (advance group) / (1 - gamma_of (advance group)))
              (view w1 p)) as (Ks & Kg & _).
  rewrite Hp2 in Ks, Kg. cbn [snd] in Ks, Kg.
  apply train_param_Ret in Hp2 as (t & igt & mv & H1 & H2 & H3 & H4).
  rewrite Ht' in H1. rewrite Hi' in H2. injection H1 as <-. injection H2 as <-.
  assert (data (param (view w2 p)) = data (param (view w1 p))) as Ed.
  { rewrite H4, Hd. unfold projection. cbn [lr momentum nesterov advance
      set_num_steps] in *.
    change (gamma_of (advance group) / (1 - gamma_of (advance group)))
      with (future_transport_of group).
    destruct (is_zero (momentum group)) eqn:Em; [reflexivity|].
    specialize (H3 eq_refl). specialize (Hm' eq_refl).
    rewrite H3 in Hm'. injection Hm' as ->. reflexivity. }
  destruct (view w2 p) as [[d2 g2] s2], (view w1 p) as [[d1 g1] s1].
  cbn in *. congruence.
Qed.

Lemma train_after_step_keeps_the_exposed_value_witness :
  let w := snd (eval after_one_step) in
  let w1 := snd (step (L:=unit) None w) in
  let w2 := snd (train w1) in
  map transported (param_groups (self w1))
  = map transported (param_groups (self w)) /\
  view w2 0%nat = view w1 0%nat.
Proof.
  intros w w1 w2.
  apply (train_after_step_keeps_the_exposed_value (L:=unit) w w1 w2
           None 0%nat
           (set_transported false
              (advance (new_group [0%nat] 0.1 0 0 0.5 false 1))) 0%nat [1]).
  - split; [reflexivity|]. split; [apply list_elem_of_here|].
    split; [apply NoDup_singleton|]. eapply only_in_group_single. reflexivity.
  - reflexivity.
  - discriminate.
  - vm_compute. reflexivity.
  - vm_compute. reflexivity.
Defined.

(** ** [step] returns when every parameter is ready *)

Ltac finish_safe :=
  eexists; split; [reflexivity|];
  split;
  [ split;
    [ intros k t; destruct k; cbn; intros E; try discriminate E;
      injection E as <-; shape
    | intros g; cbn; intros E; injection E as <-; shape ]
  | split; [cbn; eexists; reflexivity|];
    split;
    [ unfold complete, has; cbn; repeat split; intros;
      try congruence; eexists; reflexivity
    | split;
      [ intros k; destruct k; unfold has; cbn; intros [x E];
        try discriminate E; eexists; reflexivity
      | cbn; shape ] ] ].

Lemma step_param_safe group gamma ft v :
  ready group v ->
  exists v',
    step_param group gamma ft v = (Ret tt, v') /\
    shaped v' /\ is_Some (grad (param v')) /\ complete group v' /\
    (forall k, has k v -> has k v') /\
    length (data (param v')) = length (data (param v)).
Proof.
  destruct v as [[d og] [oi ot om]].
  intros ((Hs & Hg) & [g0 Hg0] & Hc). cbn in *. subst og.
  pose proof (Hg g0 eq_refl) as Lg.
  assert (forall t, oi = Some t -> length t = length d) as Li
    by (intros t E; apply (Hs Kigt_velocity t E)).
  assert (forall t, ot = Some t -> length t = length d) as Lt
    by (intros t E; apply (Hs Ktrue_params t E)).
  assert (forall t, om = Some t -> length t = length d) as Lm
    by (intros t E; apply (Hs Kmomentum_velocity t E)).
  clear Hs Hg.
  unfold step_param.
  destruct (num_steps group =? 0)%Z eqn:En.
  - clear Hc.
    destruct (is_zero (weight_decay group)), (is_zero (momentum group)) eqn:Em,
      (nesterov group), oi as [vi|], ot as [vt|], om as [vm|].
    all: try (pose proof (Li _ eq_refl)).
    all: try (pose proof (Lt _ eq_refl)).
    all: try (pose proof (Lm _ eq_refl)).
    all: clear Li Lt Lm.
    all: run.
    all: finish_safe.
  - apply Z.eqb_neq in En. destruct (Hc En) as ([vi Hi] & [vt Ht] & Hm).
    unfold has in Hm. cbn in *. subst oi ot.
    pose proof (Li _ eq_refl). pose proof (Lt _ eq_refl). clear Li Lt Hc.
    destruct (is_zero (momentum group)) eqn:Em.
    + destruct (is_zero (weight_decay group)), (nesterov group),
        om as [vm|].
      all: try (pose proof (Lm _ eq_refl)).
      all: clear Lm Hm.
      all: run.
      all: finish_safe.
    + destruct (Hm eq_refl) as [vm ->]. pose proof (Lm _ eq_refl). clear Lm Hm.
      destruct (is_zero (weight_decay group)), (nesterov group).
      all: run.
      all: finish_safe.
Qed.

Lemma grows_view_refl v : grows_view v v.
Proof.
  split; [exact id|split; [exact id|split; [intros k; exact id|reflexivity]]].
Qed.

Lemma grows_view_trans v1 v2 v3 :
  grows_view v1 v2 -> grows_view v2 v3 -> grows_view v1 v3.
Proof.
  intros (A1 & B1 & C1 & D1) (A2 & B2 & C2 & D2).
  split; [auto|split; [auto|split; [intros k H; auto|congruence]]].
Qed.

Lemma grows_refl w : grows w w.
Proof. intros p. apply grows_view_refl. Qed.

Lemma grows_trans w1 w2 w3 : grows w1 w2 -> grows w2 w3 -> grows w1 w3.
Proof. intros H12 H23 p. eapply grows_view_trans; [apply H12|apply H23]. Qed.

Lemma complete_grows g v v' : grows_view v v' -> complete g v -> complete g v'.
Proof.
  intros (_ & _ & H & _) (A & B & C).
  split; [apply H, A|split; [apply H, B|intros Hm; apply H, C, Hm]].
Qed.

Lemma ready_grows g v v' : grows_view v v' -> ready g v -> ready g v'.
Proof.
  intros Hg (A & B & C). pose proof Hg as (HA & HB & _).
  split; [apply HA, A|split; [apply HB, B|]].
  intros Hn. eapply complete_grows; [exact Hg|apply C, Hn].
Qed.

Lemma settled_grows g v v' : grows_view v v' -> settled g v -> settled g v'.
Proof.
  intros Hg (A & B & C). pose proof Hg as (HA & HB & _).
  split; [apply HA, A|split; [apply HB, B|]].
  eapply complete_grows; [exact Hg|exact C].
Qed.

Lemma settled_ready g v : settled g v -> ready g v.
Proof.
  intros (A & B & C). split; [exact A|split; [exact B|intros _; exact C]].
Qed.

Lemma step_loop_body_safe group gamma ft p w :
  ready group (view w p) ->
  exists w',
    step_loop_body group gamma ft p w = (Ret tt, w') /\
    grows w w' /\
    param_groups (self w') = param_groups (self w) /\
    complete group (view w' p).
Proof.
  intros Hr. pose proof Hr as (Hs & [g0 Hg0] & _).
  destruct (step_param_safe group gamma ft _ Hr)
    as (v' & Hv & Hs' & Hg' & Hc' & Hh & Hl).
  exists (put_view p v' w).
  unfold step_loop_body, with_param. cbn [bind gets].
  change (grad (parameters w !!! p)) with (grad (param (view w p))).
  rewrite Hg0, Hv. split; [reflexivity|]. split; [|split; [reflexivity|]].
  - intros q. destruct (decide (q = p)) as [->|Hne].
    + rewrite view_put_view_eq.
      split; [intros _; exact Hs'|].
      split; [intros _; exact Hg'|split; [exact Hh|exact Hl]].
    + rewrite (untouched_view _ _ _ (put_view_untouched q p v' w Hne)).
      apply grows_view_refl.
  - rewrite view_put_view_eq. exact Hc'.
Qed.

Lemma step_loop_safe group gamma ft l :
  forall w,
  (forall p, p ∈ l -> ready group (view w p)) ->
  exists w',
    for_each l (step_loop_body group gamma ft) w = (Ret tt, w') /\
    grows w w' /\
    param_groups (self w') = param_groups (self w) /\
    (forall p, p ∈ l -> complete group (view w' p)).
Proof.
  induction l as [|q l IH]; intros w Hr.
  - exists w. split; [reflexivity|]. split; [apply grows_refl|].
    split; [reflexivity|]. intros p Hp. inversion Hp.
  - destruct (step_loop_body_safe group gamma ft q w)
      as (w1 & H1 & G1 & E1 & C1); [apply Hr; left|].
    destruct (IH w1) as (w' & H' & G' & E' & C').
    { intros p Hp. eapply ready_grows; [apply G1|]. apply Hr. right. exact Hp. }
    exists w'. rewrite for_each_cons, H1.
    split; [exact H'|]. split; [eapply grows_trans; eassumption|].
    split; [congruence|].
    intros p Hp. apply elem_of_cons in Hp as [->|Hp]; [|apply C', Hp].
    eapply complete_grows; [apply G'|exact C1].
Qed.

Lemma py_div_cases {S} x y (s : S) :
  py_div x y s = (Ret (x / y), s) \/
  py_div x y s = (Raise ZeroDivisionError, s).
Proof. unfold py_div. destruct (Qeq_bool y 0); [right|left]; reflexivity. Qed.

(** The loop body of a group either raises [ZeroDivisionError] at one of
    its three divisions, before it has touched anything, or returns. *)
Lemma step_group_safe i g w :
  (forall p, p ∈ params g -> ready g (view w p)) ->
  (exists w',
     step_group i g w = (Ret tt, w') /\
     grows w w' /\
     param_groups (self w') =
       alter (set_num_steps (num_steps g + 1)) i (param_groups (self w)) /\
     (forall p, p ∈ params g -> complete g (view w' p))) \/
  step_group i g w = (Raise ZeroDivisionError, w).
Proof.
  intros Hr. unfold step_group.
  destruct (py_div_cases (S:=World) (inject_Z (num_steps g))
              (inject_Z (num_steps g) + delta g) w) as [E1|E1].
  2:{ right. rewrite (bind_Raise _ _ _ _ _ E1). reflexivity. }
  rewrite (bind_Ret _ _ _ _ _ E1).
  destruct (py_div_cases (S:=World) (inject_Z (num_steps g + 1))
              (inject_Z (num_steps g + 1) + delta g) w) as [E2|E2].
  2:{ right. rewrite (bind_Raise _ _ _ _ _ E2). reflexivity. }
  rewrite (bind_Ret _ _ _ _ _ E2).
  change (inject_Z (num_steps g + 1) / (inject_Z (num_steps g + 1) + delta g))
    with (future_gamma_of g).
  destruct (py_div_cases (S:=World) (future_gamma_of g)
              (1 - future_gamma_of g) w) as [E3|E3].
  2:{ right. rewrite (bind_Raise _ _ _ _ _ E3). reflexivity. }
  rewrite (bind_Ret _ _ _ _ _ E3).
  change (inject_Z (num_steps g) / (inject_Z (num_steps g) + delta g))
    with (gamma_of g).
  change (future_gamma_of g / (1 - future_gamma_of g))
    with (future_transport_of g).
  destruct (step_loop_safe g (gamma_of g) (future_transport_of g) (params g)
              w Hr) as (w1 & H1 & G1 & F1 & C1).
  left. exists (snd (update_group i (set_num_steps (num_steps g + 1)) w1)).
  split; [|split; [exact G1|split; [cbn; rewrite F1; reflexivity|exact C1]]].
  rewrite (bind_Ret _ _ _ _ _ H1). reflexivity.
Qed.

Lemma step_groups_safe k :
  forall i w,
  (i + k)%nat = length (param_groups (self w)) ->
  prepared w ->
  (forall j g, (j < i)%nat -> param_groups (self w) !! j = Some g ->
     forall p, p ∈ params g -> settled g (view w p)) ->
  exists w',
    prepared w' /\ grows w w' /\
    ((for_each (seq i k) (group_loop_body step_group) w = (Ret tt, w') /\
      all_settled w') \/
     (for_each (seq i k) (group_loop_body step_group) w
      = (Raise ZeroDivisionError, w') /\
      raised_by_a_group ZeroDivisionError w')).
Proof.
  induction k as [|k IH]; intros i w Hlen Hp Hs.
  - exists w. split; [exact Hp|]. split; [apply grows_refl|].
    left. split; [reflexivity|].
    intros j g Hg. apply (Hs j g); [|exact Hg].
    apply lookup_lt_Some in Hg. lia.
  - cbn [seq]. rewrite for_each_cons, group_loop_body_unfold.
    destruct (param_groups (self w) !! i) as [gi|] eqn:Eg.
    2:{ apply lookup_ge_None in Eg. lia. }
    pose proof (Hp i gi Eg) as Hr.
    destruct (step_group_safe i gi w Hr) as [(w1 & H1 & G1 & E1 & C1)|H1].
    2:{ exists w. rewrite H1. split; [exact Hp|]. split; [apply grows_refl|].
        right. split; [reflexivity|]. exists i, gi. split; assumption. }
    rewrite H1. destruct (IH (S i) w1) as (w' & P' & G' & D').
    + rewrite E1, length_alter. lia.
    + intros j g Hg. rewrite E1, list_lookup_alter in Hg.
      case_decide as Hd.
      * subst j. rewrite Eg in Hg. cbn in Hg. injection Hg as <-.
        intros p Hin. apply settled_ready.
        destruct (Hr p Hin) as (A & B & _).
        destruct (G1 p) as (GA & GB & _).
        split; [apply GA, A|split; [apply GB, B|apply (C1 p Hin)]].
      * intros p Hin. eapply ready_grows; [apply G1|apply (Hp j g Hg), Hin].
    + intros j g Hj Hg p Hin. rewrite E1, list_lookup_alter in Hg.
      case_decide as Hd.
      * subst j. rewrite Eg in Hg. cbn in Hg. injection Hg as <-.
        destruct (Hr p Hin) as (A & B & _).
        destruct (G1 p) as (GA & GB & _).
        split; [apply GA, A|split; [apply GB, B|apply (C1 p Hin)]].
      * eapply settled_grows; [apply G1|].
        apply (Hs j g); [lia|exact Hg|exact Hin].
    + exists w'. split; [exact P'|].
      split; [eapply grows_trans; eassumption|exact D'].
Qed.

Lemma all_settled_prepared w : all_settled w -> prepared w.
Proof. intros H j g Hg p Hp. apply settled_ready, (H j g Hg), Hp. Qed.

(** The one exception [step] can raise on parameters that are ready for
    it is [ZeroDivisionError].  When every parameter of every group has a
    gradient, has its gradient and its buffers of its own size and, once
    its group has made a step, has the buffers the group reads, [step]
    raises neither [KeyError] nor a size error: it returns, and then
    every parameter has all its buffers; or a group raises
    [ZeroDivisionError] at its divisions, before touching its parameters.
    Either way the parameters are ready again, and no exposed value has
    changed its size. *)
Theorem step_raises_only_ZeroDivisionError {L} (w : World) :
  prepared w ->
  exists w',
    prepared w' /\
    (forall p, length (data (parameters w' !!! p))
               = length (data (parameters w !!! p))) /\
    ((step (L:=L) None w = (Ret None, w') /\ all_settled w') \/
     (step (L:=L) None w = (Raise ZeroDivisionError, w') /\
      raised_by_a_group ZeroDivisionError w')).
Proof.
  intros Hp.
  destruct (step_groups_safe (length (param_groups (self w))) 0 w eq_refl Hp)
    as (w' & P & G & D).
  { intros j g Hj. lia. }
  exists w'. split; [exact P|]. split; [intros p; apply (G p)|].
  unfold step, for_groups. cbn [bind ret gets].
  destruct D as [[H S]|[H R]]; rewrite H; [left|right]; split;
    [reflexivity|exact S|reflexivity|exact R].
Qed.

Lemma prepared_fresh_world d g lr momentum dampening weight_decay nesterov
    delta :
  ~ invalid_config momentum dampening weight_decay nesterov delta ->
  length g = length d ->
  prepared
    (fresh_world d (Some g) lr momentum dampening weight_decay nesterov delta).
Proof.
  intros Hv Hl. rewrite (fresh_world_valid _ _ _ _ _ _ _ _ Hv).
  intros [|j] grp Hg; [|discriminate]. injection Hg as <-.
  intros p Hp. apply list_elem_of_singleton in Hp as ->.
  rewrite view_fresh. split; [split|split].
  - intros k t. destruct k; discriminate.
  - intros g0 [= <-]. exact Hl.
  - eexists. reflexivity.
  - intros Hn. contradiction Hn. reflexivity.
Qed.

Lemma step_raises_only_ZeroDivisionError_witness :
  exists w',
    prepared w' /\
    (forall p, length (data (parameters w' !!! p))
               = length (data (parameters
                                 (fresh_world [1] (Some [2]) 0.1 0.9 0 0.5
                                    true 1) !!! p))) /\
    ((step (L:=unit) None (fresh_world [1] (Some [2]) 0.1 0.9 0 0.5 true 1)
      = (Ret None, w') /\ all_settled w') \/
     (step (L:=unit) None (fresh_world [1] (Some [2]) 0.1 0.9 0 0.5 true 1)
      = (Raise ZeroDivisionError, w') /\
      raised_by_a_group ZeroDivisionError w')).
Proof.
  apply (step_raises_only_ZeroDivisionError (L:=unit)
           (fresh_world [1] (Some [2]) 0.1 0.9 0 0.5 true 1)).
  apply prepared_fresh_world; [|reflexivity].
  intros [H|[H|[_ [H|H]]]]; [lra|lra|lra|apply H; reflexivity].
Defined.

(** ** A training loop raises nothing but [ZeroDivisionError] *)

Lemma backward_batch (b : list (nat * Tensor)) :
  forall w, exists w',
    for_each b (fun pg => backward (fst pg) (snd pg)) w = (Ret tt, w') /\
    self w' = self w /\
    (forall p, data (parameters w' !!! p) = data (parameters w !!! p)) /\
    (forall p, p ∉ map fst b -> parameters w' !!! p = parameters w !!! p) /\
    (forall p, p ∈ map fst b ->
       exists g0, (p, g0) ∈ b /\ grad (parameters w' !!! p) = Some g0).
Proof.
  induction b as [|[p0 g0] b IH]; intros w.
  - exists w. split; [reflexivity|]. split; [reflexivity|].
    split; [reflexivity|]. split; [reflexivity|].
    intros p Hp. inversion Hp.
  - destruct (IH (snd (backward p0 g0 w))) as (w' & H & Hs & Hd & Hn & Hg).
    exists w'. rewrite for_each_cons. cbn [fst snd].
    change (backward p0 g0 w) with (Ret tt, snd (backward p0 g0 w)).
    split; [exact H|]. split; [rewrite Hs; reflexivity|].
    split; [|split].
    + intros p. rewrite Hd. cbn.
      destruct (decide (p = p0)) as [->|Hne].
      * rewrite lookup_total_insert_eq. reflexivity.
      * rewrite lookup_total_insert_ne by congruence. reflexivity.
    + intros p Hp. cbn in Hp. apply not_elem_of_cons in Hp as [Hne Hp].
      rewrite (Hn p Hp). cbn.
      rewrite lookup_total_insert_ne by congruence. reflexivity.
    + intros p Hp. destruct (decide (p ∈ map fst b)) as [Hin|Hout].
      * destruct (Hg p Hin) as (g1 & Hb & Hg1).
        exists g1. split; [right; exact Hb|exact Hg1].
      * cbn in Hp. apply elem_of_cons in Hp as [->|Hp]; [|contradiction].
        exists g0. split; [left|]. rewrite (Hn p0 Hout). cbn.
        rewrite lookup_total_insert_eq. reflexivity.
Qed.

Lemma ready_groomed g v : ready g v -> groomed g v.
Proof. intros ((A & _) & _ & C). split; [exact A|exact C]. Qed.

Lemma prepared_well_kept w : prepared w -> well_kept w.
Proof. intros H j g Hg p Hp. apply ready_groomed, (H j g Hg), Hp. Qed.

Lemma backward_batch_prepared b w :
  well_kept w -> covers w b ->
  exists w',
    for_each b (fun pg => backward (fst pg) (snd pg)) w = (Ret tt, w') /\
    prepared w' /\
    param_groups (self w') = param_groups (self w) /\
    (forall p, length (data (parameters w' !!! p))
               = length (data (parameters w !!! p))).
Proof.
  intros Hk [Hc Hl].
  destruct (backward_batch b w) as (w' & H & Hs & Hd & _ & Hg).
  exists w'. split; [exact H|]. split; [|split].
  - intros j g Hj. rewrite Hs in Hj. intros p Hp.
    destruct (Hk j g Hj p Hp) as [Hb Hcomp].
    destruct (Hg p (Hc j g p Hj Hp)) as (g0 & Hin & Hg0).
    unfold complete, has, view in *. rewrite Hs.
    cbn [param param_state] in *.
    split; [split|split].
    + intros k t E. cbn [param param_state] in *. rewrite Hd.
      apply (Hb k t E).
    + intros g1 E. cbn [param param_state] in *.
      rewrite Hg0 in E. injection E as <-.
      rewrite Hd. rewrite Forall_forall in Hl. apply (Hl (p, g0)).
      exact Hin.
    + cbn [param param_state]. rewrite Hg0. eexists. reflexivity.
    + exact Hcomp.
  - rewrite Hs. reflexivity.
  - intros p. rewrite Hd. reflexivity.
Qed.

Lemma training_round_safe b w :
  well_kept w -> covers w b ->
  exists w',
    prepared w' /\
    (forall p, length (data (parameters w' !!! p))
               = length (data (parameters w !!! p))) /\
    (((for_each b (fun pg => backward (fst pg) (snd pg)) ;;
       (step (L:=unit) None ;; ret tt)) w = (Ret tt, w') /\
      param_groups (self w') = map advance (param_groups (self w))) \/
     ((for_each b (fun pg => backward (fst pg) (snd pg)) ;;
       (step (L:=unit) None ;; ret tt)) w = (Raise ZeroDivisionError, w') /\
      raised_by_a_group ZeroDivisionError w')).
Proof.
  intros Hk Hc.
  destruct (backward_batch_prepared b w Hk Hc) as (w1 & H1 & P1 & G1 & L1).
  destruct (step_groups_safe (length (param_groups (self w1))) 0 w1 eq_refl P1)
    as (w2 & P2 & G2 & D).
  { intros j g Hj. lia. }
  exists w2. split; [exact P2|]. split.
  { intros p. destruct (G2 p) as (_ & _ & _ & E). cbn in E.
    rewrite E. apply L1. }
  rewrite (bind_Ret _ _ _ _ _ H1).
  destruct D as [[H S]|[H R]].
  - assert (step (L:=unit) None w1 = (Ret None, w2)) as Hstep.
    { unfold step, for_groups. cbn [bind ret gets]. rewrite H. reflexivity. }
    left. split; [rewrite (bind_Ret _ _ _ _ _ Hstep); reflexivity|].
    rewrite (step_Ret_groups _ _ _ Hstep), G1. reflexivity.
  - assert (step (L:=unit) None w1 = (Raise ZeroDivisionError, w2)) as Hstep.
    { unfold step, for_groups. cbn [bind ret gets]. rewrite H. reflexivity. }
    right. split; [rewrite (bind_Raise _ _ _ _ _ Hstep); reflexivity|exact R].
Qed.

Lemma covers_after_round w w' b :
  param_groups (self w') = map advance (param_groups (self w)) ->
  (forall p, length (data (parameters w' !!! p))
             = length (data (parameters w !!! p))) ->
  covers w b -> covers w' b.
Proof.
  intros Hg Hl [Hc Hs]. split.
  - intros j g p Hj. rewrite Hg, list_lookup_fmap in Hj.
    destruct (param_groups (self w) !! j) as [g0|] eqn:E0; [|discriminate].
    cbn in Hj. injection Hj as <-. cbn. apply (Hc j g0 p E0).
  - eapply Forall_impl; [exact Hs|]. intros pg E. cbn. rewrite Hl. exact E.
Qed.

(** A training loop raises nothing but [ZeroDivisionError].  Start from
    an optimizer whose stored buffers have the size of their parameter
    and whose groups that have made a step have their buffers, and let
    every backward pass store, for every parameter of every group, a
    gradient of the size of the parameter.  Then any number of rounds of
    backward pass and [step] raises neither [KeyError] nor a size error:
    the loop returns, or it stops at a [ZeroDivisionError] raised by the
    divisions of a group.  Either way the optimizer is left in a state
    from which the loop can be run again. *)
Theorem training_raises_only_ZeroDivisionError
    (batches : list (list (nat * Tensor))) :
  forall w,
  well_kept w ->
  Forall (covers w) batches ->
  exists w',
    well_kept w' /\
    (training batches w = (Ret tt, w') \/
     (training batches w = (Raise ZeroDivisionError, w') /\
      raised_by_a_group ZeroDivisionError w')).
Proof.
  unfold training.
  induction batches as [|b batches IH]; intros w Hk Hc.
  - exists w. split; [exact Hk|]. left. reflexivity.
  - apply Forall_cons in Hc as [Hb Hc].
    destruct (training_round_safe b w Hk Hb)
      as (w1 & P1 & L1 & [[H1 G1]|[H1 R1]]).
    + destruct (IH w1) as (w' & K' & D').
      * apply prepared_well_kept, P1.
      * eapply Forall_impl; [exact Hc|]. intros b'.
        apply covers_after_round; assumption.
      * exists w'. rewrite for_each_cons, H1. split; [exact K'|exact D'].
    + exists w1. rewrite for_each_cons, H1.
      split; [apply prepared_well_kept, P1|].
      right. split; [reflexivity|exact R1].
Qed.

Lemma well_kept_new_group store ps lr momentum dampening weight_decay nesterov
    delta :
  well_kept
    {| parameters := store;
       self := {| state := ∅;
                  param_groups :=
                    [new_group ps lr momentum dampening weight_decay nesterov
                       delta] |} |}.
Proof.
  intros [|j] g Hg; [|discriminate]. injection Hg as <-.
  intros p _. split.
  - unfold view. cbn. rewrite lookup_empty. cbn.
    intros k t. destruct k; discriminate.
  - intros Hn. contradiction Hn. reflexivity.
Qed.

Lemma training_raises_only_ZeroDivisionError_witness :
  exists w',
    well_kept w' /\
    (training
       [ [ (0%nat, [2]); (1%nat, [3; 4]) ]; [ (1%nat, [0; 1]); (0%nat, [1]) ] ]
       {| parameters :=
            {[ 0%nat := {| data := [1]; grad := None |};
               1%nat := {| data := [5; 6]; grad := None |} ]};
          self := {| state := ∅;
                     param_groups :=
                       [new_group [0%nat; 1%nat] 0.1 0.9 0 0.5 true 1] |} |}
     = (Ret tt, w') \/
     (training
        [ [ (0%nat, [2]); (1%nat, [3; 4]) ]; [ (1%nat, [0; 1]); (0%nat, [1]) ] ]
        {| parameters :=
             {[ 0%nat := {| data := [1]; grad := None |};
                1%nat := {| data := [5; 6]; grad := None |} ]};
           self := {| state := ∅;
                      param_groups :=
                        [new_group [0%nat; 1%nat] 0.1 0.9 0 0.5 true 1] |} |}
      = (Raise ZeroDivisionError, w') /\
      raised_by_a_group ZeroDivisionError w')).
Proof.
  apply (training_raises_only_ZeroDivisionError
           [ [ (0%nat, [2]); (1%nat, [3; 4]) ];
             [ (1%nat, [0; 1]); (0%nat, [1]) ] ]).
  - apply well_kept_new_group.
  - repeat first
      [ apply List.Forall_nil
      | apply List.Forall_cons;
        [ split;
          [ intros [|j] g p Hg Hp; [|discriminate]; injection Hg as <-;
            cbn in Hp |- *;
            apply elem_of_cons in Hp as [->|Hp];
            [|apply list_elem_of_singleton in Hp as ->];
            repeat constructor
          | repeat first
              [ apply List.Forall_nil
              | apply List.Forall_cons; [reflexivity|] ] ]
        | ] ].
Defined.
